(** * aicpp: loss and activation kernels

    A shallow embedding of [src/loss.cpp] and [src/activation.cpp].

    The kernels are C++ templates over an element type [T] (the range's
    [value_type]).  The embedding keeps them generic: an element type is
    described by a type class carrying the operators the templates use, and
    the kernels are instantiated at the real numbers (exact arithmetic) and,
    for the reduction engine, at IEEE 754 binary64 ([double]). *)

From Stdlib Require Import Floats.PrimFloat.
From Stdlib Require Import List Bool Arith Lia.
From Stdlib Require Import Reals Lra.
Import ListNotations.

Declare Scope num_scope.
Delimit Scope num_scope with num.

(** ** Element types *)

Module std.

(** What the reduction engine needs of an element type: the literal [0]
    converts to it and [std::plus<>] adds two of them. *)
Class Additive (T : Type) : Type := {
  zero : T;
  plus : T -> T -> T
}.

(** What the loss and activation templates need: the arithmetic operators,
    the two comparisons used in branches, the [<cmath>] functions and the
    conversions of the literals [1], [2] and of a [size_t]. *)
Class Floating (T : Type) : Type := {
  additive :: Additive T;
  one : T;
  two : T;
  minus : T -> T -> T;
  multiplies : T -> T -> T;
  divides : T -> T -> T;
  negate : T -> T;
  less_equal : T -> T -> bool;
  less : T -> T -> bool;
  abs : T -> T;
  pow : T -> nat -> T;
  sqrt : T -> T;
  exp : T -> T;
  log : T -> T;
  of_size : nat -> T
}.

(** [std::max(a, b)] is [(a < b) ? b : a]. *)
Definition max {T : Type} `{Floating T} (a b : T) : T :=
  if less a b then b else a.

(** [a > b] on a built-in floating-point type holds exactly when [b < a]. *)
Definition greater {T : Type} `{Floating T} (a b : T) : bool :=
  less b a.

(** [std::tanh], which only the activations call. *)
Class Hyperbolic (T : Type) : Type := {
  tanh : T -> T
}.

End std.

#[global] Existing Instance std.additive.

Infix "+" := std.plus : num_scope.
Infix "-" := std.minus : num_scope.
Infix "*" := std.multiplies : num_scope.
Infix "/" := std.divides : num_scope.
Notation "- x" := (std.negate x) : num_scope.
Infix "<=?" := std.less_equal : num_scope.
Infix ">?" := std.greater : num_scope.

(** Exact arithmetic: the real numbers. *)
#[global] Instance R_additive : std.Additive R := {|
  std.zero := 0%R;
  std.plus := Rplus
|}.

#[global] Instance R_floating : std.Floating R := {|
  std.additive := R_additive;
  std.one := 1%R;
  std.two := 2%R;
  std.minus := Rminus;
  std.multiplies := Rmult;
  std.divides := Rdiv;
  std.negate := Ropp;
  std.less_equal := fun a b => if Rle_dec a b then true else false;
  std.less := fun a b => if Rlt_dec a b then true else false;
  std.abs := Rabs;
  std.pow := Rpow_def.pow;
  std.sqrt := R_sqrt.sqrt;
  std.exp := Rtrigo_def.exp;
  std.log := ln;
  std.of_size := INR
|}.

#[global] Instance R_hyperbolic : std.Hyperbolic R := {|
  std.tanh := Rtrigo_def.tanh
|}.

(** [double]: binary64 with round-to-nearest-even; the engine only adds. *)
#[global] Instance double_additive : std.Additive float := {|
  std.zero := 0%float;
  std.plus := PrimFloat.add
|}.

(** [std::pow(x, n)] on [double] for the small integer exponents the
    kernels pass (always [2]), taken as the correctly rounded product. *)
Fixpoint double_pow (x : float) (n : nat) : float :=
  match n with
  | O => 1%float
  | S n' => PrimFloat.mul x (double_pow x n')
  end.

(** A [size_t] converted to [double]; exact below [2^53]. *)
Fixpoint double_of_size (n : nat) : float :=
  match n with
  | O => 0%float
  | S n' => PrimFloat.add 1%float (double_of_size n')
  end.

(** [double] as an element type of the losses.  [std::exp] and [std::log]
    are library functions with no counterpart among the primitive float
    operations; they are parameters of the instance. *)
Definition double_floating (libm_exp libm_log : float -> float) :
    std.Floating float := {|
  std.additive := double_additive;
  std.one := 1%float;
  std.two := 2%float;
  std.minus := PrimFloat.sub;
  std.multiplies := PrimFloat.mul;
  std.divides := PrimFloat.div;
  std.negate := PrimFloat.opp;
  std.less_equal := PrimFloat.leb;
  std.less := PrimFloat.ltb;
  std.abs := PrimFloat.abs;
  std.pow := double_pow;
  std.sqrt := PrimFloat.sqrt;
  std.exp := libm_exp;
  std.log := libm_log;
  std.of_size := double_of_size
|}.

(** ** The range algorithms the kernels call *)

Module ranges.

(** [std::views::zip(r0, r1)]: pairs up elements and ends with the shorter
    range. *)
Definition zip {A B : Type} (r0 : list A) (r1 : list B) : list (A * B) :=
  combine r0 r1.

(** [std::views::zip_transform(f, r0, r1)]. *)
Definition zip_transform {A B C : Type} (f : A -> B -> C)
    (r0 : list A) (r1 : list B) : list C :=
  map (fun ab => f (fst ab) (snd ab)) (zip r0 r1).

(** [std::views::transform(f)]. *)
Definition transform {A B : Type} (f : A -> B) (r : list A) : list B :=
  map f r.

(** [std::ranges::fold_right(first, last, init, f)]: the iteration starts
    at [last] and steps back to [first]; each step is
    [accum = f( *--tail, accum)]. *)
Definition fold_right {A U : Type} (r : list A) (init : U)
    (f : A -> U -> U) : U :=
  fold_left (fun accum x => f x accum) (rev r) init.

(** [std::ranges::size]. *)
Definition size {A : Type} (r : list A) : nat := length r.

(** A range-based [for] over a zip view, threading the loop variable. *)
Definition for_zip {A B S : Type} (r0 : list A) (r1 : list B)
    (body : S -> A -> B -> S) (s : S) : S :=
  fold_left (fun s ab => body s (fst ab) (snd ab)) (zip r0 r1) s.

End ranges.

(** ** Outcome of a call *)

(** The error taxonomy of the spec (section 7) has one error; the source
    defines none. *)
Inductive error : Type := LengthMismatch.

(** What a caller observes of a kernel call.  No kernel of the source has a
    [throw], a length test or an early exit, so a call always hands its
    value back. *)
Definition returns {T : Type} (v : T) : error + T := inr v.

(** ** [namespace loss] (src/loss.cpp)

    The file holds three revisions of the namespace.  The embedding follows
    the second, the most complete one.  The first differs in the engine's
    name ([_apply_and_sum], kept below), in [L1_f] passing a lambda for
    [distance::manhattan], in [hinge] and [contrastive] writing their
    constants as [int] literals, and in lacking [tr]; its [L1], [L2],
    [huber], [huber_f], [bce], [ce], [softmax] and [kl] are the same text.
    The third has the loops [L1], [L2] (without the square root), [huber]
    and [bce] only. *)

Module loss.

Local Open Scope num_scope.

Section Engine.
Context {T : Type} `{std.Additive T}.

(** First revision of the engine (two ranges). *)
Definition _apply_and_sum (f : T -> T -> T) (r0 r1 : list T) : T :=
  let applied := ranges.zip_transform f r0 r1 in
  ranges.fold_right applied std.zero std.plus.

(** Second revision, variadic in the source; every caller passes two
    ranges. *)
Definition apply_and_accumulate (f : T -> T -> T) (r0 r1 : list T) : T :=
  let applied := ranges.zip_transform f r0 r1 in
  ranges.fold_right applied std.zero std.plus.
End Engine.

Module distance.
Definition manhattan {T : Type} `{std.Floating T} (t1 t2 : T) : T :=
  std.abs (t1 - t2).
End distance.

Section Kernels.
Context {T : Type} `{std.Floating T}.

Definition L1 (ground predicted : list T) : T :=
  let l1 := std.zero in
  let l1 := ranges.for_zip ground predicted
              (fun l1 gnd pred => l1 + std.abs (gnd - pred)) l1 in
  l1.

Definition L1_f (ground predicted : list T) : T :=
  apply_and_accumulate distance.manhattan ground predicted.

Definition L2 (ground predicted : list T) : T :=
  let l2 := std.zero in
  let l2 := ranges.for_zip ground predicted
              (fun l2 gnd pred => l2 + std.pow (gnd - pred) 2) l2 in
  std.sqrt l2.

Definition L2_f (ground predicted : list T) : T :=
  let euc_dist := fun a b : T => std.pow (a - b) 2 in
  std.sqrt (apply_and_accumulate euc_dist ground predicted).

Definition huber (ground predicted : list T) (threshold : T) : T :=
  let huber := std.zero in
  let hbr := fun diff : T =>
    if diff <=? threshold then std.pow diff 2 / std.two
    else threshold * std.abs diff - threshold / std.two in
  let huber := ranges.for_zip ground predicted
                 (fun huber gnd pred => huber + hbr (gnd - pred)) huber in
  huber.

Definition huber_f (ground predicted : list T) (threshold : T) : T :=
  let hbr := fun a b : T =>
    let diff := a - b in
    if diff <=? threshold then std.pow diff 2 / std.two
    else threshold * std.abs diff - threshold / std.two in
  apply_and_accumulate hbr ground predicted.

Definition bce (ground predicted : list T) : T :=
  let bce := std.zero in
  let bce := ranges.for_zip ground predicted
               (fun bce gnd pred =>
                  bce + (gnd * std.log pred
                         + (gnd - std.one) * std.log (std.one - pred)))
               bce in
  - bce / std.of_size (ranges.size ground).

Definition bce_f (ground predicted : list T) : T :=
  let f := fun gnd pred : T =>
    gnd * std.log pred + (gnd - std.one) * std.log (std.one - pred) in
  let bce := apply_and_accumulate f ground predicted in
  - bce / std.of_size (ranges.size ground).

Definition ce (ground predicted : list T) : T :=
  let ce := std.zero in
  let ce := ranges.for_zip ground predicted
              (fun ce gnd pred => ce + gnd * std.log pred) ce in
  - ce / std.of_size (ranges.size ground).

Definition ce_f (ground predicted : list T) : T :=
  let f := fun gnd pred : T => gnd * std.log pred in
  let ce := apply_and_accumulate f ground predicted in
  - ce / std.of_size (ranges.size ground).

Definition softmax (predicted : list T) : list T :=
  let expd := ranges.transform std.exp predicted in
  let exp_sum := ranges.fold_right expd std.zero std.plus in
  let div_by_sum := fun pred : T => pred / exp_sum in
  ranges.transform div_by_sum expd.

Definition kl (ground predicted : list T) : T :=
  let f := fun gnd pred : T => gnd * std.log (gnd / pred) in
  apply_and_accumulate f ground predicted.

Definition contrastive (ground : bool) (featuresA featuresB : list T)
    (margin : T) : T :=
  let dist := L2_f featuresA featuresB in
  if ground then std.pow dist 2
  else std.pow (std.max (margin - dist) std.zero) 2.

Definition hinge (ground predicted : list T) : T :=
  let f := fun gnd pred : T => std.max std.zero (std.one - gnd * pred) in
  apply_and_accumulate f ground predicted.

(** Triplet ranking. *)
Definition tr (anchor positive negative : list T) (margin : T) : T :=
  let dist_pos := L2_f anchor positive in
  let dist_neg := L2_f anchor negative in
  std.max (dist_pos - dist_neg + margin) std.zero.
End Kernels.

End loss.

(** The third revision's [L2]: the loop of the later revisions, returned
    without the square root. *)

Module loss_rev3.

Local Open Scope num_scope.

Definition L2 {T : Type} `{std.Floating T} (ground predicted : list T) : T :=
  let l2 := std.zero in
  let l2 := ranges.for_zip ground predicted
              (fun l2 gnd pred => l2 + std.pow (gnd - pred) 2) l2 in
  l2.

End loss_rev3.

(** ** [namespace activation] (src/activation.cpp) *)

Module activation.

Local Open Scope num_scope.

Section Transforms.
Context {T : Type} `{std.Floating T}.

Definition sigmoid (z : T) : T :=
  std.one / (std.one + std.exp (- z)).

(** Gated linear unit. *)
Definition glu (z : T) : T := z * sigmoid z.

Definition swish (z : T) : T := glu z.
End Transforms.

Section Rectifiers.
Context {T : Type} `{std.Floating T}.

Definition relu (z : T) : T := std.max std.zero z.

(** Parametric relu. *)
Definition prelu (z alpha : T) : T :=
  if z >? std.zero then z else z * alpha.

(** Exponentially linear unit. *)
Definition elu (z alpha : T) : T :=
  if z >? std.zero then z else alpha * (std.exp z - std.one).

Definition softplus (z beta : T) : T :=
  std.log (std.one + std.exp (z * beta)) / beta.
End Rectifiers.

Section Saturating.
Context {T : Type} `{std.Floating T} `{std.Hyperbolic T}.

Definition tanh (z : T) : T := std.tanh z.

(** The [tanh] of the body is [std::tanh], brought in by a
    using-declaration. *)
Definition mish (z : T) : T := z * std.tanh (softplus z std.one).
End Saturating.

End activation.

(** ** The sequences of the demo in [main] *)

Module main.

Definition ground : list R := [1 / 10; 1; 3 / 10; 5 / 10; 7 / 10]%R.

Definition predicted : list R := [1 / 10; 3 / 10; 4 / 10; 1 / 10; 2 / 10]%R.

End main.

(** ** The spec's wording, as definitions to compare the code with *)

Module spec.

(** Section 4.1: accumulate by addition in strictly increasing index
    order, from index [0] to [N-1], starting from [0]. *)
Definition left_to_right {T : Type} `{std.Additive T} (f : T -> T -> T)
    (r0 r1 : list T) : T :=
  fold_left
    (fun acc i => (acc + f (nth i r0 std.zero) (nth i r1 std.zero))%num)
    (seq 0 (length r0)) std.zero.

(** The same terms, nested the other way round:
    [t_0 + (t_1 + (... + (t_{N-1} + 0)))]; the innermost addition, the
    first one carried out, is the one of the last index. *)
Definition right_to_left {T : Type} `{std.Additive T} (f : T -> T -> T)
    (r0 r1 : list T) : T :=
  List.fold_right
    (fun i acc => (f (nth i r0 std.zero) (nth i r1 std.zero) + acc)%num)
    std.zero (seq 0 (length r0)).

(** The loop shared by the hand-written losses: a running sum of a
    per-element term over the zipped pairs. *)
Definition pairs_sum {T : Type} `{std.Additive T} (term : T -> T -> T)
    (r0 r1 : list T) : T :=
  ranges.for_zip r0 r1 (fun s a b => (s + term a b)%num) std.zero.

(** Section 4.3, per-element functions of [bce] and [ce]. *)
Definition bce_term {T : Type} `{std.Floating T} (g p : T) : T :=
  (g * std.log p + (g - std.one) * std.log (std.one - p))%num.

Definition ce_term {T : Type} `{std.Floating T} (g p : T) : T :=
  (g * std.log p)%num.

(** Mathematical sum of a list of reals. *)
Fixpoint Rsum (ts : list R) : R :=
  match ts with
  | [] => 0%R
  | t :: ts' => (t + Rsum ts')%R
  end.

(** Section 4.3, per-element function of [huber] on the difference. *)
Definition huber_term (threshold diff : R) : R :=
  if Rle_dec diff threshold then (diff ^ 2 / 2)%R
  else (threshold * Rabs diff - threshold / 2)%R.

(** Section 4.3, the remaining per-element functions, for any element
    type. *)
Definition abs_diff {T : Type} `{std.Floating T} (g p : T) : T :=
  std.abs (g - p)%num.

Definition sq_diff {T : Type} `{std.Floating T} (g p : T) : T :=
  std.pow (g - p)%num 2.

Definition huber_pair {T : Type} `{std.Floating T} (threshold g p : T) : T :=
  let diff := (g - p)%num in
  if (diff <=? threshold)%num then (std.pow diff 2 / std.two)%num
  else (threshold * std.abs diff - threshold / std.two)%num.

Definition kl_term {T : Type} `{std.Floating T} (g p : T) : T :=
  (g * std.log (g / p))%num.

Definition hinge_term {T : Type} `{std.Floating T} (g p : T) : T :=
  std.max std.zero (std.one - g * p)%num.

(** Section 4.3, [L2]: the square root of the sum of the squared
    differences, the sum nested as the engine nests it. *)
Definition euclidean {T : Type} `{std.Floating T} (a b : list T) : T :=
  std.sqrt (right_to_left sq_diff a b).

(** Section 4.4: the sum of the exponentials,
    [e^{x_0} + (e^{x_1} + (... + 0))]. *)
Definition exp_sum {T : Type} `{std.Floating T} (xs : list T) : T :=
  List.fold_right (fun x acc => (std.exp x + acc)%num) std.zero xs.

End spec.

(** Unfolds the operators of the real instance. *)
Ltac real_ops :=
  cbn [std.zero std.plus std.one std.two std.minus std.multiplies
       std.divides std.negate std.less_equal std.less std.abs std.pow
       std.sqrt std.exp std.log std.of_size std.additive
       R_additive R_floating] in *.

(** ** Ranges: structural facts *)

Section RangeFacts.
Context {A B C U : Type}.

Lemma fold_right_nested (f : A -> U -> U) (init : U) (r : list A) :
  ranges.fold_right r init f = List.fold_right f init r.
Proof.
  unfold ranges.fold_right.
  rewrite <- (rev_involutive r) at 2.
  symmetry. apply fold_left_rev_right.
Qed.

Lemma zip_length (r0 : list A) (r1 : list B) :
  length (ranges.zip r0 r1) = Nat.min (length r0) (length r1).
Proof. unfold ranges.zip. apply length_combine. Qed.

Lemma zip_prefix (r0 : list A) (r1 : list B) :
  let k := Nat.min (length r0) (length r1) in
  ranges.zip r0 r1 = ranges.zip (firstn k r0) (firstn k r1).
Proof.
  intro k. unfold ranges.zip.
  rewrite <- combine_firstn.
  symmetry. apply firstn_all2.
  rewrite length_combine. subst k. lia.
Qed.

Lemma zip_transform_prefix (f : A -> B -> C) (r0 : list A) (r1 : list B) :
  let k := Nat.min (length r0) (length r1) in
  ranges.zip_transform f r0 r1
  = ranges.zip_transform f (firstn k r0) (firstn k r1).
Proof.
  intro k. unfold ranges.zip_transform.
  now rewrite (zip_prefix r0 r1).
Qed.

Lemma for_zip_prefix {S : Type} (body : S -> A -> B -> S) (s : S)
    (r0 : list A) (r1 : list B) :
  let k := Nat.min (length r0) (length r1) in
  ranges.for_zip r0 r1 body s
  = ranges.for_zip (firstn k r0) (firstn k r1) body s.
Proof.
  intro k. unfold ranges.for_zip.
  now rewrite (zip_prefix r0 r1).
Qed.

Lemma zip_transform_nth (f : A -> B -> C) (d0 : A) (d1 : B) :
  forall (r0 : list A) (r1 : list B),
    length r0 = length r1 ->
    ranges.zip_transform f r0 r1
    = map (fun i => f (nth i r0 d0) (nth i r1 d1)) (seq 0 (length r0)).
Proof.
  unfold ranges.zip_transform, ranges.zip.
  induction r0 as [|a r0 IH]; intros [|b r1] Hlen; simpl in *;
    try discriminate; auto.
  f_equal.
  rewrite <- seq_shift, map_map.
  apply IH. lia.
Qed.
End RangeFacts.

Lemma fold_right_over_map {A B U : Type} (g : A -> B) (f : B -> U -> U)
    (init : U) (l : list A) :
  List.fold_right f init (map g l)
  = List.fold_right (fun a acc => f (g a) acc) init l.
Proof. induction l as [|a l IH]; simpl; congruence. Qed.

Lemma fold_left_over_map {A B U : Type} (g : A -> B) (f : U -> B -> U)
    (l : list A) (init : U) :
  fold_left f (map g l) init = fold_left (fun acc a => f acc (g a)) l init.
Proof. revert init. induction l as [|a l IH]; simpl; auto. Qed.

(** ** The reduction engine, for any element type *)

Section EngineFacts.
Context {T : Type} `{std.Additive T}.

Lemma engine_revisions_agree (f : T -> T -> T) (r0 r1 : list T) :
  loss._apply_and_sum f r0 r1 = loss.apply_and_accumulate f r0 r1.
Proof. reflexivity. Qed.

Lemma engine_nested (f : T -> T -> T) (r0 r1 : list T) :
  loss.apply_and_accumulate f r0 r1
  = List.fold_right std.plus std.zero (ranges.zip_transform f r0 r1).
Proof. unfold loss.apply_and_accumulate. apply fold_right_nested. Qed.

Lemma engine_prefix (f : T -> T -> T) (r0 r1 : list T) :
  let k := Nat.min (length r0) (length r1) in
  loss.apply_and_accumulate f r0 r1
  = loss.apply_and_accumulate f (firstn k r0) (firstn k r1).
Proof.
  intro k. unfold loss.apply_and_accumulate.
  now rewrite (zip_transform_prefix f r0 r1).
Qed.

Lemma pairs_sum_left_to_right (f : T -> T -> T) (r0 r1 : list T) :
  length r0 = length r1 ->
  spec.pairs_sum f r0 r1 = spec.left_to_right f r0 r1.
Proof.
  intro Hlen. unfold spec.pairs_sum, spec.left_to_right, ranges.for_zip.
  rewrite <- (fold_left_over_map
                (fun i => f (nth i r0 std.zero) (nth i r1 std.zero))
                std.plus).
  rewrite <- (zip_transform_nth f std.zero std.zero r0 r1 Hlen).
  unfold ranges.zip_transform.
  now rewrite fold_left_over_map.
Qed.

(** With an associative addition that has [0] as identity the two nestings
    agree. *)
Section Monoid.
Hypothesis plus_assoc : forall a b c : T, (a + (b + c) = (a + b) + c)%num.
Hypothesis plus_zero_l : forall a : T, (std.zero + a = a)%num.
Hypothesis plus_zero_r : forall a : T, (a + std.zero = a)%num.

Lemma fold_left_plus_shift (ts : list T) (a : T) :
  fold_left std.plus ts a
  = (a + List.fold_right std.plus std.zero ts)%num.
Proof.
  revert a. induction ts as [|t ts IH]; intro a; simpl.
  - now rewrite plus_zero_r.
  - now rewrite IH, plus_assoc.
Qed.

Lemma engine_is_pairs_sum (f : T -> T -> T) (r0 r1 : list T) :
  loss.apply_and_accumulate f r0 r1 = spec.pairs_sum f r0 r1.
Proof.
  rewrite engine_nested.
  unfold spec.pairs_sum, ranges.for_zip.
  rewrite <- (fold_left_over_map (fun ab => f (fst ab) (snd ab)) std.plus).
  fold (ranges.zip_transform f r0 r1).
  now rewrite fold_left_plus_shift, plus_zero_l.
Qed.
End Monoid.
End EngineFacts.

(** ** Sequences of differing lengths *)

(** Facts about the underlying lists, stated on the library's list
    functions only. *)

Section ListFacts.
Context {A B C : Type}.

Lemma combine_prefixes (r0 : list A) (r1 : list B) :
  combine r0 r1
  = combine (firstn (Nat.min (length r0) (length r1)) r0)
            (firstn (Nat.min (length r0) (length r1)) r1).
Proof.
  rewrite <- combine_firstn. symmetry. apply firstn_all2.
  rewrite length_combine. lia.
Qed.

Lemma prefixes_same_length (r0 : list A) (r1 : list B) :
  length (firstn (Nat.min (length r0) (length r1)) r0)
  = length (firstn (Nat.min (length r0) (length r1)) r1).
Proof. rewrite !length_firstn. lia. Qed.

Lemma map_combine_by_index (f : A -> B -> C) (d0 : A) (d1 : B) :
  forall (r0 : list A) (r1 : list B),
    length r0 = length r1 ->
    map (fun ab => f (fst ab) (snd ab)) (combine r0 r1)
    = map (fun i => f (nth i r0 d0) (nth i r1 d1)) (seq 0 (length r0)).
Proof.
  induction r0 as [|a r0 IH]; intros [|b r1] Hlen; simpl in *;
    try discriminate; auto.
  f_equal. rewrite <- seq_shift, map_map. apply IH. lia.
Qed.
End ListFacts.

Section PrefixSums.
Context {T : Type} `{std.Additive T}.

(** Stepping back from the last pair, adding each term in front of the
    accumulator, gives the nested sum over the two prefixes. *)
Lemma backward_sum_over_prefixes (f : T -> T -> T) (r0 r1 : list T) :
  fold_left (fun accum x => (x + accum)%num)
    (rev (map (fun ab => f (fst ab) (snd ab)) (combine r0 r1))) std.zero
  = spec.right_to_left f
      (firstn (Nat.min (length r0) (length r1)) r0)
      (firstn (Nat.min (length r0) (length r1)) r1).
Proof.
  rewrite (combine_prefixes r0 r1).
  rewrite (map_combine_by_index f std.zero std.zero _ _
             (prefixes_same_length r0 r1)).
  rewrite <- fold_left_rev_right, rev_involutive.
  unfold spec.right_to_left. apply fold_right_over_map.
Qed.

(** Walking the pairs from the first, adding each term behind the
    accumulator, gives the left-to-right sum over the two prefixes. *)
Lemma forward_sum_over_prefixes (term : T -> T -> T) (r0 r1 : list T) :
  fold_left (fun s ab => (s + term (fst ab) (snd ab))%num)
    (combine r0 r1) std.zero
  = spec.left_to_right term
      (firstn (Nat.min (length r0) (length r1)) r0)
      (firstn (Nat.min (length r0) (length r1)) r1).
Proof.
  rewrite (combine_prefixes r0 r1).
  rewrite <- (fold_left_over_map (fun ab => term (fst ab) (snd ab)) std.plus).
  rewrite (map_combine_by_index term std.zero std.zero _ _
             (prefixes_same_length r0 r1)).
  unfold spec.left_to_right. apply fold_left_over_map.
Qed.
Lemma backward_sum_equal_lengths (f : T -> T -> T) (r0 r1 : list T) :
  length r0 = length r1 ->
  fold_left (fun accum x => (x + accum)%num)
    (rev (map (fun ab => f (fst ab) (snd ab)) (combine r0 r1))) std.zero
  = spec.right_to_left f r0 r1.
Proof.
  intro Hlen. rewrite backward_sum_over_prefixes.
  rewrite <- Hlen, Nat.min_id, firstn_all.
  now rewrite Hlen, firstn_all.
Qed.
End PrefixSums.

Lemma backward_sum_of_exps {T : Type} `{std.Floating T} (xs : list T) :
  fold_left (fun accum x => (x + accum)%num) (rev (map std.exp xs)) std.zero
  = spec.exp_sum xs.
Proof.
  rewrite <- fold_left_rev_right, rev_involutive.
  unfold spec.exp_sum. apply fold_right_over_map.
Qed.

(** C1 (amended): a call to the reduction engine (either revision) or to a
    loss built on it ([L1_f], [L2_f], [huber_f], [bce_f], [ce_f], [kl],
    [hinge]) with two sequences of differing lengths [N] and [M] does not
    fail with [LengthMismatch]: there is no length check, the zip ends with
    the shorter sequence, and the call returns the reduction, nested from
    the last index down, of the per-element function over exactly the first
    [min(N, M)] pairs ([bce_f] and [ce_f] still divide by the length of
    [ground]). *)
Theorem engine_has_no_length_check {T : Type} `{std.Floating T}
    (f : T -> T -> T) (ground predicted : list T) (threshold : T) :
  length ground <> length predicted ->
  let k := Nat.min (length ground) (length predicted) in
  let g := firstn k ground in
  let p := firstn k predicted in
  returns (loss.apply_and_accumulate f ground predicted)
    = inr (spec.right_to_left f g p)
  /\ returns (loss._apply_and_sum f ground predicted)
    = inr (spec.right_to_left f g p)
  /\ returns (loss.L1_f ground predicted)
    = inr (spec.right_to_left spec.abs_diff g p)
  /\ returns (loss.L2_f ground predicted)
    = inr (std.sqrt (spec.right_to_left spec.sq_diff g p))
  /\ returns (loss.huber_f ground predicted threshold)
    = inr (spec.right_to_left (spec.huber_pair threshold) g p)
  /\ returns (loss.bce_f ground predicted)
    = inr (- spec.right_to_left spec.bce_term g p
           / std.of_size (length ground))%num
  /\ returns (loss.ce_f ground predicted)
    = inr (- spec.right_to_left spec.ce_term g p
           / std.of_size (length ground))%num
  /\ returns (loss.kl ground predicted)
    = inr (spec.right_to_left spec.kl_term g p)
  /\ returns (loss.hinge ground predicted)
    = inr (spec.right_to_left spec.hinge_term g p).
Proof.
  intros _ k g p. subst k g p. unfold returns.
  repeat split; f_equal.
  - exact (backward_sum_over_prefixes f ground predicted).
  - exact (backward_sum_over_prefixes f ground predicted).
  - exact (backward_sum_over_prefixes spec.abs_diff ground predicted).
  - exact (f_equal std.sqrt
             (backward_sum_over_prefixes spec.sq_diff ground predicted)).
  - exact (backward_sum_over_prefixes (spec.huber_pair threshold)
             ground predicted).
  - exact (f_equal (fun s => (- s / std.of_size (length ground))%num)
             (backward_sum_over_prefixes spec.bce_term ground predicted)).
  - exact (f_equal (fun s => (- s / std.of_size (length ground))%num)
             (backward_sum_over_prefixes spec.ce_term ground predicted)).
  - exact (backward_sum_over_prefixes spec.kl_term ground predicted).
  - exact (backward_sum_over_prefixes spec.hinge_term ground predicted).
Qed.

Lemma engine_has_no_length_check_witness :
  length [3%R; 5%R; 7%R] <> length [1%R; 2%R]
  /\ returns (loss.apply_and_accumulate Rminus [3%R; 5%R; 7%R] [1%R; 2%R])
     = inr (spec.right_to_left Rminus [3%R; 5%R] [1%R; 2%R])
  /\ returns (loss.L1_f [3%R; 5%R; 7%R] [1%R; 2%R])
     = inr (spec.right_to_left spec.abs_diff [3%R; 5%R] [1%R; 2%R]).
Proof.
  assert (Hlen : length [3%R; 5%R; 7%R] <> length [1%R; 2%R])
    by (simpl; lia).
  pose proof (engine_has_no_length_check
                Rminus [3%R; 5%R; 7%R] [1%R; 2%R] 0%R Hlen)
    as [Hengine [_ [HL1 _]]].
  split; [exact Hlen|]. split; [exact Hengine | exact HL1].
Defined.

(** C1 fails on the code: the engine called on sequences of lengths 3 and 2
    hands back the sum over the first two pairs, [(3 - 1) + (5 - 2) = 5]. *)
Lemma length_mismatch_is_not_raised :
  length [3%R; 5%R; 7%R] <> length [1%R; 2%R]
  /\ returns (loss.apply_and_accumulate Rminus [3%R; 5%R; 7%R] [1%R; 2%R])
     = inr 5%R
  /\ returns (loss.apply_and_accumulate Rminus [3%R; 5%R; 7%R] [1%R; 2%R])
     <> inl LengthMismatch.
Proof.
  split; [simpl; lia|]. split.
  - unfold returns. f_equal. cbv. lra.
  - discriminate.
Qed.

(** C9: when the two sequences handed to a paired loss ([L1], [L2],
    [huber], [bce], [ce], [kl], [hinge]) have differing lengths [N] and [M],
    the loss returns normally and reduces over exactly the first
    [min(N, M)] pairs, the zip ending with the shorter sequence: the loops
    return the left-to-right sum of their per-element function over the two
    prefixes of that length, [kl] and [hinge] the engine's sum over them
    ([bce] and [ce] then divide by the length of [ground]). *)
Theorem paired_losses_stop_at_shorter {T : Type} `{std.Floating T}
    (ground predicted : list T) (threshold : T) :
  length ground <> length predicted ->
  let k := Nat.min (length ground) (length predicted) in
  let g := firstn k ground in
  let p := firstn k predicted in
  length (ranges.zip ground predicted) = k
  /\ length g = k /\ length p = k
  /\ returns (loss.L1 ground predicted)
    = inr (spec.left_to_right spec.abs_diff g p)
  /\ returns (loss.L2 ground predicted)
    = inr (std.sqrt (spec.left_to_right spec.sq_diff g p))
  /\ returns (loss.huber ground predicted threshold)
    = inr (spec.left_to_right (spec.huber_pair threshold) g p)
  /\ returns (loss.bce ground predicted)
    = inr (- spec.left_to_right spec.bce_term g p
           / std.of_size (length ground))%num
  /\ returns (loss.ce ground predicted)
    = inr (- spec.left_to_right spec.ce_term g p
           / std.of_size (length ground))%num
  /\ returns (loss.kl ground predicted)
    = inr (spec.right_to_left spec.kl_term g p)
  /\ returns (loss.hinge ground predicted)
    = inr (spec.right_to_left spec.hinge_term g p).
Proof.
  intros _ k g p. subst g p.
  split; [apply zip_length|].
  split; [rewrite length_firstn; subst k; lia|].
  split; [rewrite length_firstn; subst k; lia|].
  subst k. unfold returns.
  repeat split; f_equal.
  - exact (forward_sum_over_prefixes spec.abs_diff ground predicted).
  - exact (f_equal std.sqrt
             (forward_sum_over_prefixes spec.sq_diff ground predicted)).
  - exact (forward_sum_over_prefixes (spec.huber_pair threshold)
             ground predicted).
  - exact (f_equal (fun s => (- s / std.of_size (length ground))%num)
             (forward_sum_over_prefixes spec.bce_term ground predicted)).
  - exact (f_equal (fun s => (- s / std.of_size (length ground))%num)
             (forward_sum_over_prefixes spec.ce_term ground predicted)).
  - exact (backward_sum_over_prefixes spec.kl_term ground predicted).
  - exact (backward_sum_over_prefixes spec.hinge_term ground predicted).
Qed.

Lemma paired_losses_stop_at_shorter_witness :
  length [3%R; 5%R; 7%R] <> length [1%R; 9%R]
  /\ returns (loss.L1 [3%R; 5%R; 7%R] [1%R; 9%R])
     = inr (spec.left_to_right spec.abs_diff [3%R; 5%R] [1%R; 9%R])
  /\ returns (loss.hinge [3%R; 5%R; 7%R] [1%R; 9%R])
     = inr (spec.right_to_left spec.hinge_term [3%R; 5%R] [1%R; 9%R]).
Proof.
  assert (Hlen : length [3%R; 5%R; 7%R] <> length [1%R; 9%R])
    by (simpl; lia).
  pose proof (paired_losses_stop_at_shorter
                [3%R; 5%R; 7%R] [1%R; 9%R] 0%R Hlen)
    as [_ [_ [_ [HL1 [_ [_ [_ [_ [_ Hhinge]]]]]]]]].
  split; [exact Hlen|]. split; [exact HL1 | exact Hhinge].
Defined.

(** ** Order of accumulation *)

(** C2 (amended): for every element function [f] and every pair of
    equal-length sequences of length [N], the reduction engine (either
    revision) returns the right fold
    [f(x_0,y_0) + (f(x_1,y_1) + (... + (f(x_{N-1},y_{N-1}) + 0)))]: it starts
    from [0] and adds the terms from index [N-1] down to index [0].  Where
    addition is associative with [0] as its identity (exact arithmetic) this
    is the value of the left-to-right fold. *)
Theorem engine_accumulates_right_to_left {T : Type} `{std.Additive T}
    (f : T -> T -> T) (r0 r1 : list T) :
  length r0 = length r1 ->
  loss.apply_and_accumulate f r0 r1 = spec.right_to_left f r0 r1
  /\ loss._apply_and_sum f r0 r1 = spec.right_to_left f r0 r1
  /\ ((forall a b c : T, (a + (b + c) = (a + b) + c)%num) ->
      (forall a : T, (std.zero + a = a)%num) ->
      (forall a : T, (a + std.zero = a)%num) ->
      loss.apply_and_accumulate f r0 r1 = spec.left_to_right f r0 r1).
Proof.
  intro Hlen.
  assert (Hr : loss.apply_and_accumulate f r0 r1 = spec.right_to_left f r0 r1).
  { rewrite engine_nested.
    rewrite (zip_transform_nth f std.zero std.zero r0 r1 Hlen).
    unfold spec.right_to_left. apply fold_right_over_map. }
  repeat split; [exact Hr | exact Hr |].
  intros Hassoc Hzl Hzr.
  rewrite <- (pairs_sum_left_to_right f r0 r1 Hlen).
  now apply engine_is_pairs_sum.
Qed.

Lemma engine_accumulates_right_to_left_witness :
  length [1%R; 2%R] = length [3%R; 4%R]
  /\ loss.apply_and_accumulate Rminus [1%R; 2%R] [3%R; 4%R]
     = spec.right_to_left Rminus [1%R; 2%R] [3%R; 4%R]
  /\ loss.apply_and_accumulate Rminus [1%R; 2%R] [3%R; 4%R]
     = spec.left_to_right Rminus [1%R; 2%R] [3%R; 4%R].
Proof.
  pose proof (engine_accumulates_right_to_left
                Rminus [1%R; 2%R] [3%R; 4%R] eq_refl) as [Hr [_ Hl]].
  split; [reflexivity|]. split; [exact Hr|].
  apply Hl; intros; simpl; lra.
Defined.

(** C2 fails on the code: on [double] the engine's value is that of the
    right fold, which here differs from the left-to-right sum. *)
Lemma engine_is_not_left_to_right :
  let r0 := [1%float; 1e17%float; (-1e17)%float] in
  let r1 := [0%float; 0%float; 0%float] in
  length r0 = length r1
  /\ loss.apply_and_accumulate PrimFloat.sub r0 r1 = 1%float
  /\ spec.left_to_right PrimFloat.sub r0 r1 = 0%float
  /\ loss.apply_and_accumulate PrimFloat.sub r0 r1
     <> spec.left_to_right PrimFloat.sub r0 r1.
Proof.
  cbv zeta. repeat split; try (vm_compute; reflexivity).
  vm_compute. intro Heq. discriminate Heq.
Qed.

(** ** Exact arithmetic: the kernels at the real numbers *)

Section RealSums.
Open Scope R_scope.

Lemma nested_Rsum (ts : list R) :
  List.fold_right (@std.plus R _) std.zero ts = spec.Rsum ts.
Proof.
  induction ts as [|t ts IH]; cbn [List.fold_right spec.Rsum];
    [reflexivity|].
  now rewrite IH.
Qed.

Lemma engine_Rsum (f : R -> R -> R) (r0 r1 : list R) :
  loss.apply_and_accumulate f r0 r1
  = spec.Rsum (ranges.zip_transform f r0 r1).
Proof. rewrite engine_nested. apply nested_Rsum. Qed.

Lemma running_Rsum (ts : list R) (a : R) :
  fold_left Rplus ts a = a + spec.Rsum ts.
Proof.
  revert a. induction ts as [|t ts IH]; intro a; simpl.
  - lra.
  - rewrite IH. lra.
Qed.

Lemma pairs_sum_Rsum (term : R -> R -> R) (r0 r1 : list R) :
  spec.pairs_sum term r0 r1
  = spec.Rsum (ranges.zip_transform term r0 r1).
Proof.
  unfold spec.pairs_sum, ranges.for_zip, ranges.zip_transform. real_ops.
  rewrite <- (fold_left_over_map (fun ab => term (fst ab) (snd ab)) Rplus).
  rewrite running_Rsum. lra.
Qed.

(** The hand-written loop and the engine agree on the reals. *)
Lemma engine_pairs_sum_R (f : R -> R -> R) (r0 r1 : list R) :
  loss.apply_and_accumulate f r0 r1 = spec.pairs_sum f r0 r1.
Proof. now rewrite engine_Rsum, pairs_sum_Rsum. Qed.

Lemma Rsum_nonneg (ts : list R) :
  Forall (fun t => 0 <= t) ts -> 0 <= spec.Rsum ts.
Proof.
  induction 1 as [|t ts Ht _ IH]; simpl; lra.
Qed.

Lemma Rsum_zero_terms (ts : list R) :
  Forall (fun t => 0 <= t) ts ->
  spec.Rsum ts = 0 -> Forall (fun t => t = 0) ts.
Proof.
  induction 1 as [|t ts Ht Hts IH]; simpl; intro Hsum.
  - constructor.
  - pose proof (Rsum_nonneg ts Hts) as Hge.
    constructor; [lra|]. apply IH. lra.
Qed.

Lemma Rsum_all_zero (ts : list R) :
  Forall (fun t => t = 0) ts -> spec.Rsum ts = 0.
Proof.
  induction 1 as [|t ts Ht _ IH]; simpl; lra.
Qed.

Lemma zip_transform_Forall (P : R -> Prop) (f : R -> R -> R) :
  (forall a b, P (f a b)) ->
  forall r0 r1, Forall P (ranges.zip_transform f r0 r1).
Proof.
  intros Hf r0 r1. unfold ranges.zip_transform.
  apply Forall_forall. intros t Hin.
  apply in_map_iff in Hin as [ab [<- _]]. apply Hf.
Qed.

Lemma max_Rmax (a b : R) : std.max a b = Rmax a b.
Proof.
  unfold std.max. real_ops.
  destruct (Rlt_dec a b) as [Hlt|Hge].
  - symmetry. apply Rmax_right. lra.
  - symmetry. apply Rmax_left. lra.
Qed.

Lemma less_equal_Rle_dec {X : Type} (a b : R) (x y : X) :
  (if (a <=? b)%num then x else y) = (if Rle_dec a b then x else y).
Proof. real_ops. now destruct (Rle_dec a b). Qed.
End RealSums.

Section RealLosses.
Open Scope R_scope.

Lemma L1_Rsum (ground predicted : list R) :
  loss.L1 ground predicted
  = spec.Rsum (ranges.zip_transform (fun g p => Rabs (g - p))
                 ground predicted).
Proof. exact (pairs_sum_Rsum _ ground predicted). Qed.

Lemma L2_Rsum (ground predicted : list R) :
  loss.L2 ground predicted
  = sqrt (spec.Rsum (ranges.zip_transform (fun g p => (g - p) ^ 2)
                       ground predicted)).
Proof.
  unfold loss.L2. cbv zeta.
  change (@std.sqrt R _) with R_sqrt.sqrt. f_equal.
  exact (pairs_sum_Rsum _ ground predicted).
Qed.

Lemma huber_Rsum (ground predicted : list R) (threshold : R) :
  loss.huber ground predicted threshold
  = spec.Rsum (ranges.zip_transform
                 (fun g p => spec.huber_term threshold (g - p))
                 ground predicted).
Proof.
  change (loss.huber ground predicted threshold)
    with (spec.pairs_sum
            (fun g p : R =>
               if ((g - p) <=? threshold)%num
               then (std.pow (g - p) 2 / std.two)%num
               else (threshold * std.abs (g - p) - threshold / std.two)%num)
            ground predicted).
  rewrite pairs_sum_Rsum. f_equal.
  unfold ranges.zip_transform. apply map_ext. intro gp.
  unfold spec.huber_term. apply less_equal_Rle_dec.
Qed.

Lemma L2_f_is_L2 (r0 r1 : list R) : loss.L2_f r0 r1 = loss.L2 r0 r1.
Proof.
  unfold loss.L2_f. cbv zeta. now rewrite engine_pairs_sum_R.
Qed.

Lemma abs_terms_zero_iff :
  forall ground predicted : list R,
    length ground = length predicted ->
    Forall (fun t => t = 0)
      (ranges.zip_transform (fun g p => Rabs (g - p)) ground predicted)
    <-> ground = predicted.
Proof.
  unfold ranges.zip_transform, ranges.zip.
  induction ground as [|g ground IH]; intros [|p predicted] Hlen;
    simpl in *; try discriminate.
  - split; auto.
  - injection Hlen as Hlen. specialize (IH predicted Hlen).
    split.
    + intro Hall. inversion Hall as [|t ts Ht Hts]; subst.
      f_equal; [|now apply IH].
      destruct (Req_dec g p) as [Heq|Hne]; [exact Heq|].
      apply Rabs_no_R0 in Ht; [contradiction|lra].
    + intro Heq. injection Heq as -> ->. constructor.
      * rewrite Rminus_diag. apply Rabs_R0.
      * now apply IH.
Qed.

Lemma square_terms_zero_diag (a : list R) :
  Forall (fun t => t = 0)
    (ranges.zip_transform (fun g p => (g - p) ^ 2) a a).
Proof.
  unfold ranges.zip_transform, ranges.zip.
  induction a as [|x a IH]; simpl; constructor; [lra | exact IH].
Qed.
(** The demo values of the spec's concrete scenario. *)

Ltac split_abs := unfold Rabs; repeat (destruct (Rcase_abs _)); try lra.

Ltac demo_terms :=
  unfold main.ground, main.predicted, ranges.zip_transform, ranges.zip;
  cbn [combine map fst snd spec.Rsum].

Example L1_demo : loss.L1 main.ground main.predicted = 17 / 10.
Proof. rewrite L1_Rsum. demo_terms. split_abs. Qed.

Example L2_demo : loss.L2 main.ground main.predicted = sqrt (91 / 100).
Proof. rewrite L2_Rsum. demo_terms. f_equal. lra. Qed.

Example huber_demo :
  loss.huber main.ground main.predicted (2 / 10) = 25 / 1000.
Proof.
  rewrite huber_Rsum. demo_terms. unfold spec.huber_term.
  repeat (destruct (Rle_dec _ _)); try lra; split_abs.
Qed.
End RealLosses.

(** C10: under exact arithmetic the hand-written loop and the
    reduction-engine variant of each loss compute the same value on
    equal-length sequences: [L1 = L1_f], [L2 = L2_f], [huber = huber_f],
    [bce = bce_f] and [ce = ce_f]. *)
Theorem loop_and_engine_variants_agree (ground predicted : list R)
    (threshold : R) :
  length ground = length predicted ->
  loss.L1 ground predicted = loss.L1_f ground predicted
  /\ loss.L2 ground predicted = loss.L2_f ground predicted
  /\ loss.huber ground predicted threshold
     = loss.huber_f ground predicted threshold
  /\ loss.bce ground predicted = loss.bce_f ground predicted
  /\ loss.ce ground predicted = loss.ce_f ground predicted.
Proof.
  intros _.
  unfold loss.L1_f, loss.L2_f, loss.huber_f, loss.bce_f, loss.ce_f.
  cbv zeta. rewrite !engine_pairs_sum_R.
  repeat split; reflexivity.
Qed.

Lemma loop_and_engine_variants_agree_witness :
  length [1%R; 2%R] = length [3%R; 5%R]
  /\ loss.L1 [1%R; 2%R] [3%R; 5%R] = loss.L1_f [1%R; 2%R] [3%R; 5%R].
Proof.
  split; [reflexivity|].
  exact (proj1 (loop_and_engine_variants_agree
                  [1%R; 2%R] [3%R; 5%R] 1%R eq_refl)).
Defined.

(** C4: for equal-length sequences and every threshold, [huber] is the sum
    over all indices of [h(diff)], [diff = g - p], where [h(diff)] is
    [diff^2/2] when the signed [diff <= threshold] and
    [threshold*|diff| - threshold/2] otherwise. *)
Theorem huber_is_sum_of_terms (ground predicted : list R) (threshold : R) :
  length ground = length predicted ->
  loss.huber ground predicted threshold
  = spec.Rsum
      (map (fun i => spec.huber_term threshold
                       (nth i ground 0 - nth i predicted 0)%R)
           (seq 0 (length ground))).
Proof.
  intro Hlen.
  rewrite huber_Rsum.
  now rewrite (zip_transform_nth _ 0%R 0%R ground predicted Hlen).
Qed.

Lemma huber_is_sum_of_terms_witness :
  length [1%R; 0%R] = length [0%R; 3%R]
  /\ loss.huber [1%R; 0%R] [0%R; 3%R] 2%R
     = (spec.huber_term 2 (1 - 0) + (spec.huber_term 2 (0 - 3) + 0))%R.
Proof.
  split; [reflexivity|].
  exact (huber_is_sum_of_terms [1%R; 0%R] [0%R; 3%R] 2%R eq_refl).
Defined.

(** C7: [L1(a, a) = 0] and [L2(a, a) = 0] for every sequence [a]; for
    equal-length sequences [L1(ground, predicted) = 0] exactly when the two
    sequences are element-wise equal. *)
Theorem L1_L2_vanish_on_equal (a : list R) :
  loss.L1 a a = 0%R
  /\ loss.L2 a a = 0%R
  /\ forall ground predicted : list R,
       length ground = length predicted ->
       (loss.L1 ground predicted = 0%R <-> ground = predicted).
Proof.
  assert (Hiff : forall ground predicted : list R,
             length ground = length predicted ->
             (loss.L1 ground predicted = 0%R <-> ground = predicted)).
  { intros ground predicted Hlen. rewrite L1_Rsum.
    rewrite <- (abs_terms_zero_iff ground predicted Hlen).
    split.
    - apply Rsum_zero_terms.
      apply zip_transform_Forall. intros; apply Rabs_pos.
    - apply Rsum_all_zero. }
  split; [|split; [|exact Hiff]].
  - now apply Hiff.
  - rewrite L2_Rsum, (Rsum_all_zero _ (square_terms_zero_diag a)).
    apply sqrt_0.
Qed.

Lemma L1_L2_vanish_on_equal_witness :
  length [1%R; 2%R] = length [1%R; 2%R]
  /\ (loss.L1 [1%R; 2%R] [1%R; 2%R] = 0%R <-> [1%R; 2%R] = [1%R; 2%R]).
Proof.
  split; [reflexivity|].
  exact (proj2 (proj2 (L1_L2_vanish_on_equal [1%R; 2%R]))
           [1%R; 2%R] [1%R; 2%R] eq_refl).
Defined.

(** ** Sign of the losses *)

Section Signs.
Open Scope R_scope.

Lemma L1_nonneg (ground predicted : list R) :
  0 <= loss.L1 ground predicted.
Proof.
  rewrite L1_Rsum. apply Rsum_nonneg.
  apply zip_transform_Forall. intros; apply Rabs_pos.
Qed.

Lemma L2_nonneg (ground predicted : list R) :
  0 <= loss.L2 ground predicted.
Proof. rewrite L2_Rsum. apply sqrt_pos. Qed.

Lemma hinge_nonneg (ground predicted : list R) :
  0 <= loss.hinge ground predicted.
Proof.
  unfold loss.hinge. cbv zeta. rewrite engine_Rsum.
  apply Rsum_nonneg. apply zip_transform_Forall.
  intros g p. rewrite max_Rmax. apply Rmax_l.
Qed.

(** One term of [huber] in its linear branch, on the call of the demo
    ([threshold = 0.2]) with a difference of [0.4]. *)
Lemma huber_linear_term_negative :
  loss.huber [5 / 10] [1 / 10] (2 / 10) = - (2 / 100).
Proof.
  unfold loss.huber, ranges.for_zip, ranges.zip. simpl. real_ops.
  destruct (Rle_dec (5 / 10 - 1 / 10) (2 / 10)) as [Hle|Hgt]; [lra|].
  rewrite Rabs_right; lra.
Qed.
End Signs.

(** C3: [L1], [L2] and [hinge] are non-negative for all real inputs;
    [huber] is not: with [ground = [0.5]], [predicted = [0.1]] and
    [threshold = 0.2] it returns [-0.02]. *)
Theorem huber_negative_others_nonneg :
  (forall ground predicted : list R,
      (0 <= loss.L1 ground predicted)%R
      /\ (0 <= loss.L2 ground predicted)%R
      /\ (0 <= loss.hinge ground predicted)%R)
  /\ loss.huber [(5 / 10)%R] [(1 / 10)%R] (2 / 10)%R = (- (2 / 100))%R
  /\ (loss.huber [(5 / 10)%R] [(1 / 10)%R] (2 / 10)%R < 0)%R.
Proof.
  split.
  - intros ground predicted.
    auto using L1_nonneg, L2_nonneg, hinge_nonneg.
  - rewrite huber_linear_term_negative. split; [reflexivity | lra].
Qed.

(** ** Triplet ranking *)

Section PythagoreanDistances.
Open Scope R_scope.

Lemma L2_3_4 : loss.L2 [0; 0] [3; 4] = 5.
Proof.
  rewrite L2_Rsum. unfold ranges.zip_transform, ranges.zip.
  cbn [combine map fst snd spec.Rsum].
  replace ((0 - 3) ^ 2 + ((0 - 4) ^ 2 + 0)) with (5 ^ 2) by ring.
  apply sqrt_pow2. lra.
Qed.

Lemma L2_5_12 : loss.L2 [0; 0] [5; 12] = 13.
Proof.
  rewrite L2_Rsum. unfold ranges.zip_transform, ranges.zip.
  cbn [combine map fst snd spec.Rsum].
  replace ((0 - 5) ^ 2 + ((0 - 12) ^ 2 + 0)) with (13 ^ 2) by ring.
  apply sqrt_pow2. lra.
Qed.
End PythagoreanDistances.

(** C6 (amended): for equal-length [anchor], [positive], [negative] and
    every margin, [tr] is
    [max(d(anchor, positive) - d(anchor, negative) + margin, 0)] where [d]
    is [L2_f], the square root of the engine's sum of squared differences
    (nested from the last index down); this holds for every element type.
    Under exact arithmetic [L2_f] is [L2], so [tr] is
    [max(L2(anchor, positive) - L2(anchor, negative) + margin, 0)] and is
    [0] whenever [L2(anchor, negative) - L2(anchor, positive) >= margin]. *)
Theorem tr_clamps_engine_distances :
  (forall (T : Type) (F : std.Floating T)
          (anchor positive negative : list T) (margin : T),
      length anchor = length positive ->
      length anchor = length negative ->
      loss.tr anchor positive negative margin
      = std.max (spec.euclidean anchor positive
                 - spec.euclidean anchor negative + margin)%num std.zero)
  /\ (forall (anchor positive negative : list R) (margin : R),
         length anchor = length positive ->
         length anchor = length negative ->
         loss.tr anchor positive negative margin
         = Rmax (loss.L2 anchor positive - loss.L2 anchor negative + margin) 0
         /\ ((loss.L2 anchor negative - loss.L2 anchor positive
              >= margin)%R ->
             loss.tr anchor positive negative margin = 0%R)).
Proof.
  split.
  - intros T F anchor positive negative margin Hpos Hneg.
    unfold spec.euclidean.
    rewrite <- (backward_sum_equal_lengths spec.sq_diff anchor positive Hpos).
    rewrite <- (backward_sum_equal_lengths spec.sq_diff anchor negative Hneg).
    reflexivity.
  - intros anchor positive negative margin _ _.
    unfold loss.tr. cbv zeta.
    rewrite max_Rmax, !L2_f_is_L2. real_ops.
    split; [reflexivity|].
    intro Hge. apply Rmax_right. lra.
Qed.

Lemma tr_clamps_engine_distances_witness :
  length [0%R; 0%R] = length [3%R; 4%R]
  /\ length [0%R; 0%R] = length [5%R; 12%R]
  /\ (loss.L2 [0%R; 0%R] [5%R; 12%R] - loss.L2 [0%R; 0%R] [3%R; 4%R] >= 2)%R
  /\ loss.tr [0%R; 0%R] [3%R; 4%R] [5%R; 12%R] 2%R = 0%R
  /\ loss.tr [0%R; 0%R] [5%R; 12%R] [3%R; 4%R] 2%R = 10%R.
Proof.
  assert (Hge : (loss.L2 [0%R; 0%R] [5%R; 12%R]
                 - loss.L2 [0%R; 0%R] [3%R; 4%R] >= 2)%R)
    by (rewrite L2_3_4, L2_5_12; lra).
  split; [reflexivity|]. split; [reflexivity|]. split; [exact Hge|].
  split.
  - exact (proj2 (proj2 tr_clamps_engine_distances
                    [0%R; 0%R] [3%R; 4%R] [5%R; 12%R] 2%R eq_refl eq_refl)
             Hge).
  - rewrite (proj1 (proj2 tr_clamps_engine_distances
                      [0%R; 0%R] [5%R; 12%R] [3%R; 4%R] 2%R eq_refl eq_refl)).
    rewrite L2_3_4, L2_5_12.
    replace (13 - 5 + 2)%R with 10%R by lra.
    apply Rmax_left. lra.
Defined.

(** C6 fails on the code with [L2] read as the loop: on [double], whatever
    the library's [exp] and [log], the loop [L2] and the engine's [L2_f]
    round differently on these sequences; [L2(anchor, negative) -
    L2(anchor, positive) >= margin] holds and the stated maximum is [0],
    yet [tr] returns [2^-26]. *)
Lemma tr_differs_from_loop_L2_on_double :
  let anchor := [0%float; 0%float; 0%float] in
  let positive := [1e8%float; 1%float; 1%float] in
  let negative := [1%float; 1%float; 1e8%float] in
  let margin := 0%float in
  length anchor = length positive
  /\ length anchor = length negative
  /\ forall libm_exp libm_log : float -> float,
       let F := double_floating libm_exp libm_log in
       @loss.tr float F anchor positive negative margin = 0x1p-26%float
       /\ @std.max float F
            (@loss.L2 float F anchor positive
             - @loss.L2 float F anchor negative + margin)%num std.zero
          = 0%float
       /\ (margin <=? (@loss.L2 float F anchor negative
                       - @loss.L2 float F anchor positive))%num = true
       /\ @loss.tr float F anchor positive negative margin
          <> @std.max float F
               (@loss.L2 float F anchor positive
                - @loss.L2 float F anchor negative + margin)%num std.zero
       /\ @loss.tr float F anchor positive negative margin <> 0%float.
Proof.
  cbv zeta. split; [reflexivity|]. split; [reflexivity|].
  intros libm_exp libm_log.
  repeat split; try (vm_compute; reflexivity);
    vm_compute; intro Heq; discriminate Heq.
Qed.

(** ** Activations *)

Lemma swish_delegates_to_glu {T : Type} `{std.Floating T} (z : T) :
  activation.swish z = activation.glu z.
Proof. reflexivity. Qed.

(** C8: for every scalar [z], [swish(z) = glu(z)], and this common value is
    [z * sigmoid(z) = z / (1 + e^{-z})]. *)
Theorem swish_glu_value (z : R) :
  activation.swish z = activation.glu z
  /\ activation.glu z = (z * activation.sigmoid z)%R
  /\ (z * activation.sigmoid z)%R = (z / (1 + exp (- z)))%R.
Proof.
  repeat split.
  unfold activation.sigmoid. real_ops.
  unfold Rdiv. now rewrite Rmult_1_l.
Qed.

(** ** Softmax *)

Section Softmax.
Open Scope R_scope.

Lemma softmax_quotients (predicted : list R) :
  loss.softmax predicted
  = map (fun x => exp x / spec.Rsum (map exp predicted)) predicted.
Proof.
  unfold loss.softmax, ranges.transform. cbv zeta.
  rewrite fold_right_nested, nested_Rsum, map_map.
  reflexivity.
Qed.

Lemma Rsum_bounds_member (ts : list R) :
  Forall (fun t => 0 <= t) ts ->
  forall t, In t ts -> t <= spec.Rsum ts.
Proof.
  induction 1 as [|u ts Hu Hts IH]; simpl; intros t Hin.
  - contradiction.
  - pose proof (Rsum_nonneg ts Hts) as Hge.
    destruct Hin as [->|Hin]; [lra|].
    specialize (IH t Hin). lra.
Qed.

Lemma exp_terms_nonneg (xs : list R) :
  Forall (fun t => 0 <= t) (map exp xs).
Proof.
  apply Forall_forall. intros t Hin.
  apply in_map_iff in Hin as [x [<- _]].
  left. apply exp_pos.
Qed.

Lemma exp_sum_pos (xs : list R) :
  xs <> [] -> 0 < spec.Rsum (map exp xs).
Proof.
  destruct xs as [|x xs]; [congruence|]. intros _. simpl.
  pose proof (exp_pos x).
  pose proof (Rsum_nonneg _ (exp_terms_nonneg xs)).
  lra.
Qed.

Lemma Rsum_scaled (c : R) (xs : list R) :
  spec.Rsum (map (fun x => exp x / c) xs)
  = spec.Rsum (map exp xs) / c.
Proof.
  induction xs as [|x xs IH]; simpl.
  - unfold Rdiv. now rewrite Rmult_0_l.
  - rewrite IH. unfold Rdiv. ring.
Qed.
End Softmax.

(** C5 (amended): for every element type and every input, [softmax]
    returns a sequence of the input's length whose [i]-th entry is
    [e^{x_i}] divided by the sum [e^{x_0} + (e^{x_1} + (... + 0))].  Under
    exact (real-number) arithmetic and for every non-empty input, that
    divisor is the sum of the [e^{x_j}] over all [j], every entry lies in
    [(0, 1]] and the entries sum to [1]. *)
Theorem softmax_normalises_nonempty :
  (forall (T : Type) (F : std.Floating T) (predicted : list T),
      length (loss.softmax predicted) = length predicted
      /\ forall (i : nat) (d : T),
           (i < length predicted)%nat ->
           nth i (loss.softmax predicted) d
           = (std.exp (nth i predicted d) / spec.exp_sum predicted)%num)
  /\ (forall predicted : list R,
         predicted <> [] ->
         (forall i, (i < length predicted)%nat ->
            nth i (loss.softmax predicted) 0%R
            = (exp (nth i predicted 0) / spec.Rsum (map exp predicted))%R)
         /\ (forall y, In y (loss.softmax predicted) -> (0 < y <= 1)%R)
         /\ spec.Rsum (loss.softmax predicted) = 1%R).
Proof.
  split.
  - intros T F predicted.
    assert (Hmap : loss.softmax predicted
                   = map (fun x => (std.exp x / spec.exp_sum predicted)%num)
                       predicted).
    { unfold loss.softmax, ranges.transform, ranges.fold_right. cbv zeta.
      rewrite backward_sum_of_exps. apply map_map. }
    rewrite Hmap. split; [apply length_map|].
    intros i d Hi.
    rewrite (nth_indep _ d
               (std.exp d / spec.exp_sum predicted)%num)
      by (now rewrite length_map).
    apply (map_nth (fun x => (std.exp x / spec.exp_sum predicted)%num)).
  - intros predicted Hne. rewrite softmax_quotients.
    pose proof (exp_sum_pos predicted Hne) as Hpos.
    split; [|split].
    + intros i Hi.
      rewrite (nth_indep _ 0%R
                 (exp 0 / spec.Rsum (map exp predicted))%R)
        by (now rewrite length_map).
      apply (map_nth (fun x => (exp x / spec.Rsum (map exp predicted))%R)).
    + intros y Hin. apply in_map_iff in Hin as [x [<- Hx]].
      pose proof (exp_pos x) as Hex.
      assert (Hle : (exp x <= spec.Rsum (map exp predicted))%R).
      { apply Rsum_bounds_member; [apply exp_terms_nonneg|].
        now apply in_map. }
      split.
      * now apply Rdiv_lt_0_compat.
      * apply (Rmult_le_reg_r (spec.Rsum (map exp predicted)));
          [exact Hpos|].
        unfold Rdiv. rewrite Rmult_assoc, Rinv_l by lra. lra.
    + rewrite Rsum_scaled. unfold Rdiv. apply Rinv_r. lra.
Qed.

Lemma softmax_normalises_nonempty_witness :
  [1%R; 2%R] <> []
  /\ length (loss.softmax [1%R; 2%R]) = length [1%R; 2%R]
  /\ nth 1 (loss.softmax [1%R; 2%R]) 0%R
     = (exp 2 / (exp 1 + (exp 2 + 0)))%R
  /\ spec.Rsum (loss.softmax [1%R; 2%R]) = 1%R.
Proof.
  assert (Hne : [1%R; 2%R] <> []) by discriminate.
  pose proof (proj1 softmax_normalises_nonempty R _ [1%R; 2%R])
    as [Hlen _].
  pose proof (proj2 softmax_normalises_nonempty [1%R; 2%R] Hne)
    as [Hnth [_ Hsum]].
  split; [exact Hne|]. split; [exact Hlen|].
  split; [exact (Hnth 1%nat ltac:(simpl; lia)) | exact Hsum].
Defined.

(** C5 fails on the code at the empty sequence: [softmax] returns the empty
    sequence, whose entries sum to [0]. *)
Lemma softmax_empty_sums_to_zero :
  loss.softmax (@nil R) = []
  /\ spec.Rsum (loss.softmax (@nil R)) = 0%R
  /\ spec.Rsum (loss.softmax (@nil R)) <> 1%R.
Proof.
  split; [reflexivity|]. split; [reflexivity|].
  simpl. lra.
Qed.

(** * Further properties of the kernels, at the real numbers *)

(** ** Activations *)

(** Unfolds the comparisons of the real instance. *)
Ltac real_tests :=
  unfold std.greater, std.max; real_ops;
  repeat match goal with
         | |- context [Rlt_dec ?a ?b] => destruct (Rlt_dec a b)
         | |- context [Rle_dec ?a ?b] => destruct (Rle_dec a b)
         end.

Section RealActivations.
Open Scope R_scope.

Lemma sigmoid_quotient (z : R) :
  activation.sigmoid z = / (1 + exp (- z)).
Proof. unfold activation.sigmoid. real_ops. unfold Rdiv. ring. Qed.

Lemma sigmoid_denominator (z : R) : 1 < 1 + exp (- z).
Proof. pose proof (exp_pos (- z)). lra. Qed.

Lemma sigmoid_bounds (z : R) : 0 < activation.sigmoid z < 1.
Proof.
  pose proof (sigmoid_denominator z) as Hd.
  rewrite sigmoid_quotient. split.
  - apply Rinv_0_lt_compat. lra.
  - rewrite <- Rinv_1. apply Rinv_0_lt_contravar; lra.
Qed.

Lemma sigmoid_complement (z : R) :
  activation.sigmoid (- z) = 1 - activation.sigmoid z.
Proof.
  rewrite !sigmoid_quotient, Ropp_involutive.
  pose proof (exp_pos z) as Hz.
  rewrite exp_Ropp. field. split; [lra|].
  intro Heq. pose proof (Rinv_0_lt_compat _ Hz). lra.
Qed.

Lemma relu_Rmax (z : R) : activation.relu z = Rmax 0 z.
Proof. unfold activation.relu. apply max_Rmax. Qed.

Lemma tanh_exp (x : R) :
  tanh x = (exp x - exp (- x)) / (exp x + exp (- x)).
Proof.
  unfold tanh, sinh, cosh.
  pose proof (exp_pos x). pose proof (exp_pos (- x)).
  field. lra.
Qed.

Lemma tanh_of_positive (x : R) : 0 < x -> 0 < tanh x < 1.
Proof.
  intro Hx. rewrite tanh_exp.
  pose proof (exp_pos (- x)) as Hn.
  assert (Hlt : exp (- x) < exp x) by (apply exp_increasing; lra).
  split.
  - apply Rdiv_lt_0_compat; lra.
  - apply (Rmult_lt_reg_r (exp x + exp (- x))); [lra|].
    unfold Rdiv. rewrite Rmult_assoc, Rinv_l by lra. lra.
Qed.

Lemma softplus_one_positive (z : R) : 0 < activation.softplus z 1.
Proof.
  unfold activation.softplus. real_ops.
  unfold Rdiv. rewrite Rinv_1, Rmult_1_r.
  rewrite <- ln_1. apply ln_increasing; [lra|].
  pose proof (exp_pos (z * 1)). lra.
Qed.
End RealActivations.

(** X1: [sigmoid] maps every real into the open interval (0, 1), is
    strictly increasing, and satisfies [sigmoid(-z) = 1 - sigmoid(z)]. *)
Theorem sigmoid_unit_interval (z : R) :
  (0 < activation.sigmoid z < 1)%R
  /\ activation.sigmoid (- z)%R = (1 - activation.sigmoid z)%R
  /\ forall z' : R, (z < z')%R ->
       (activation.sigmoid z < activation.sigmoid z')%R.
Proof.
  split; [apply sigmoid_bounds|]. split; [apply sigmoid_complement|].
  intros z' Hlt. rewrite !sigmoid_quotient.
  pose proof (sigmoid_denominator z) as Hd.
  pose proof (exp_pos (- z')) as Hz'.
  apply Rinv_0_lt_contravar; [lra|].
  apply Rplus_lt_compat_l. apply exp_increasing. lra.
Qed.

Lemma sigmoid_unit_interval_witness :
  (0 < 1)%R /\ (activation.sigmoid 0 < activation.sigmoid 1)%R.
Proof.
  assert (Hlt : (0 < 1)%R) by lra.
  split; [exact Hlt|].
  exact (proj2 (proj2 (sigmoid_unit_interval 0%R)) 1%R Hlt).
Defined.

(** X2: [relu] is never negative, returns its argument exactly on the
    non-negative reals, returns [0] on the others, and is idempotent. *)
Theorem relu_clamps_at_zero (z : R) :
  (0 <= activation.relu z)%R
  /\ (activation.relu z = z <-> (0 <= z)%R)
  /\ ((z <= 0)%R -> activation.relu z = 0%R)
  /\ activation.relu (activation.relu z) = activation.relu z.
Proof.
  rewrite !relu_Rmax.
  repeat split.
  - apply Rmax_l.
  - intro Heq. rewrite <- Heq. apply Rmax_l.
  - intro Hz. now apply Rmax_right.
  - intro Hz. now apply Rmax_left.
  - apply Rmax_right. apply Rmax_l.
Qed.

Lemma relu_clamps_at_zero_witness :
  (-1 <= 0)%R /\ activation.relu (-1)%R = 0%R.
Proof.
  assert (Hle : (-1 <= 0)%R) by lra.
  split; [exact Hle|].
  exact (proj1 (proj2 (proj2 (relu_clamps_at_zero (-1)%R))) Hle).
Defined.

(** X3: [prelu] and [elu] with [alpha = 0] are [relu]; [prelu] with
    [alpha = 1] is the identity; and for [alpha <= 1] [prelu] is the larger
    of [z] and [alpha * z]. *)
Theorem prelu_elu_special_slopes (z alpha : R) :
  activation.prelu z 0%R = activation.relu z
  /\ activation.elu z 0%R = activation.relu z
  /\ activation.prelu z 1%R = z
  /\ ((alpha <= 1)%R -> activation.prelu z alpha = Rmax z (z * alpha)).
Proof.
  rewrite relu_Rmax.
  unfold activation.prelu, activation.elu, Rmax.
  repeat split; try intro Ha; real_tests; try lra; try nra.
Qed.

Lemma prelu_elu_special_slopes_witness :
  (1 / 10 <= 1)%R
  /\ activation.prelu (-2)%R (1 / 10)%R = Rmax (-2) (-2 * (1 / 10)).
Proof.
  assert (Hle : (1 / 10 <= 1)%R) by lra.
  split; [exact Hle|].
  exact (proj2 (proj2 (proj2
           (prelu_elu_special_slopes (-2)%R (1 / 10)%R))) Hle).
Defined.

(** X4: for [alpha >= 0], [elu] never goes below [-alpha], is the identity
    on the positive reals and is non-positive on the others. *)
Theorem elu_bounded_below (z alpha : R) :
  (0 <= alpha)%R ->
  (- alpha <= activation.elu z alpha)%R
  /\ ((0 < z)%R -> activation.elu z alpha = z)
  /\ ((z <= 0)%R -> (activation.elu z alpha <= 0)%R).
Proof.
  intro Ha. unfold activation.elu, std.greater. real_ops.
  destruct (Rlt_dec 0 z) as [Hz|Hz].
  - repeat split; intros; lra.
  - assert (Hprod : (0 <= alpha * exp z)%R).
    { apply Rmult_le_pos; [exact Ha|]. left. apply exp_pos. }
    assert (Hle : (exp z <= 1)%R).
    { rewrite <- exp_0. destruct (Req_dec z 0) as [->|Hne]; [lra|].
      left. apply exp_increasing. lra. }
    repeat split; intros; try lra; nra.
Qed.

Lemma elu_bounded_below_witness :
  (0 <= 1)%R /\ (- 1 <= activation.elu (-3)%R 1%R)%R.
Proof.
  assert (Ha : (0 <= 1)%R) by lra.
  split; [exact Ha|].
  exact (proj1 (elu_bounded_below (-3)%R 1%R Ha)).
Defined.

(** X5: [swish] (and [glu]) lies between [0] and its argument, and
    [swish(z) - swish(-z) = z]. *)
Theorem swish_between_zero_and_input (z : R) :
  ((0 <= z)%R -> (0 <= activation.swish z <= z)%R)
  /\ ((z <= 0)%R -> (z <= activation.swish z <= 0)%R)
  /\ (activation.swish z - activation.swish (- z))%R = z.
Proof.
  pose proof (sigmoid_bounds z) as [Hlo Hhi].
  pose proof (sigmoid_complement z) as Hneg.
  unfold activation.swish, activation.glu. real_ops.
  rewrite Hneg.
  repeat split; try intro Hz; nra.
Qed.

Lemma swish_between_zero_and_input_witness :
  (0 <= 2)%R /\ (0 <= activation.swish 2 <= 2)%R.
Proof.
  assert (Hz : (0 <= 2)%R) by lra.
  split; [exact Hz|].
  exact (proj1 (swish_between_zero_and_input 2%R) Hz).
Defined.

(** X6: for [beta > 0], [softplus] is positive and above its argument, and
    [softplus(z, beta) - softplus(-z, beta) = z]. *)
Theorem softplus_above_relu (z beta : R) :
  (0 < beta)%R ->
  (0 < activation.softplus z beta)%R
  /\ (z < activation.softplus z beta)%R
  /\ (activation.softplus z beta - activation.softplus (- z) beta)%R = z.
Proof.
  intro Hb. unfold activation.softplus. real_ops.
  pose proof (exp_pos (z * beta)) as Hpos.
  pose proof (exp_pos (- z * beta)) as Hneg.
  assert (Hl0 : (0 < ln (1 + exp (z * beta)))%R).
  { rewrite <- ln_1. apply ln_increasing; lra. }
  assert (Hlz : (z * beta < ln (1 + exp (z * beta)))%R).
  { rewrite <- (ln_exp (z * beta)) at 1. apply ln_increasing; lra. }
  repeat split.
  - now apply Rdiv_lt_0_compat.
  - apply (Rmult_lt_reg_r beta); [exact Hb|].
    unfold Rdiv. rewrite Rmult_assoc, Rinv_l by lra. lra.
  - assert (Hq : (1 + exp (z * beta)
                  = exp (z * beta) * (1 + exp (- z * beta)))%R).
    { rewrite Rmult_plus_distr_l, <- exp_plus.
      replace (z * beta + - z * beta)%R with 0%R by ring.
      rewrite exp_0. ring. }
    rewrite Hq at 1. rewrite ln_mult by lra. rewrite ln_exp.
    field. lra.
Qed.

Lemma softplus_above_relu_witness :
  (0 < 1)%R /\ (2 < activation.softplus 2 1)%R.
Proof.
  assert (Hb : (0 < 1)%R) by lra.
  split; [exact Hb|].
  exact (proj1 (proj2 (softplus_above_relu 2%R 1%R Hb))).
Defined.

(** X7: [mish] lies strictly between [0] and its argument for every
    non-zero argument, and [mish(0) = 0]; so [|mish(z)| <= |z|] and [mish]
    has the sign of its argument. *)
Theorem mish_between_zero_and_input (z : R) :
  ((0 < z)%R -> (0 < activation.mish z < z)%R)
  /\ ((z < 0)%R -> (z < activation.mish z < 0)%R)
  /\ activation.mish 0%R = 0%R
  /\ (Rabs (activation.mish z) <= Rabs z)%R.
Proof.
  pose proof (tanh_of_positive _ (softplus_one_positive z)) as [Hlo Hhi].
  unfold activation.mish. cbn [std.tanh R_hyperbolic]. real_ops.
  repeat split; try intro Hz; try nra.
  rewrite Rabs_mult.
  rewrite (Rabs_right (tanh _)) by lra.
  pose proof (Rabs_pos z). nra.
Qed.

Lemma mish_between_zero_and_input_witness :
  (0 < 1)%R /\ (0 < activation.mish 1 < 1)%R.
Proof.
  assert (Hz : (0 < 1)%R) by lra.
  split; [exact Hz|].
  exact (proj1 (mish_between_zero_and_input 1%R) Hz).
Defined.

(** ** Distances *)

Section ZipFacts.
Context {A B C : Type}.

Lemma zip_transform_swap (f : A -> B -> C) :
  forall (r0 : list A) (r1 : list B),
    ranges.zip_transform f r0 r1
    = ranges.zip_transform (fun b a => f a b) r1 r0.
Proof.
  unfold ranges.zip_transform, ranges.zip.
  induction r0 as [|a r0 IH]; intros [|b r1]; simpl; auto.
  now rewrite IH.
Qed.

Lemma zip_transform_ext (f g : A -> B -> C) (r0 : list A) (r1 : list B) :
  (forall a b, f a b = g a b) ->
  ranges.zip_transform f r0 r1 = ranges.zip_transform g r0 r1.
Proof.
  intro Hfg. unfold ranges.zip_transform.
  apply map_ext. intro ab. apply Hfg.
Qed.

Lemma zip_transform_app (f : A -> B -> C) :
  forall (r0 : list A) (r1 : list B) (s0 : list A) (s1 : list B),
    length r0 = length r1 ->
    ranges.zip_transform f (r0 ++ s0) (r1 ++ s1)
    = ranges.zip_transform f r0 r1 ++ ranges.zip_transform f s0 s1.
Proof.
  unfold ranges.zip_transform, ranges.zip.
  induction r0 as [|a r0 IH]; intros [|b r1] s0 s1 Hlen; simpl in *;
    try discriminate; auto.
  f_equal. apply IH. lia.
Qed.

Lemma zip_Forall (P : A -> Prop) (Q : B -> Prop) :
  forall (r0 : list A) (r1 : list B),
    Forall P r0 -> Forall Q r1 ->
    Forall (fun ab => P (fst ab) /\ Q (snd ab)) (ranges.zip r0 r1).
Proof.
  unfold ranges.zip.
  induction r0 as [|a r0 IH]; intros [|b r1] H0 H1; simpl; auto.
  inversion H0; inversion H1; subst. constructor; auto.
Qed.
End ZipFacts.

Section RealDistances.
Open Scope R_scope.

Lemma Rsum_app (ts us : list R) :
  spec.Rsum (ts ++ us) = spec.Rsum ts + spec.Rsum us.
Proof. induction ts as [|t ts IH]; simpl; lra. Qed.

Lemma Rsum_le (f g : R * R -> R) (l : list (R * R)) :
  Forall (fun ab => f ab <= g ab) l ->
  spec.Rsum (map f l) <= spec.Rsum (map g l).
Proof. induction 1 as [|ab l Hab _ IH]; simpl; lra. Qed.

Lemma Rsum_eq (f g : R * R -> R) (l : list (R * R)) :
  Forall (fun ab => f ab = g ab) l ->
  spec.Rsum (map f l) = spec.Rsum (map g l).
Proof. induction 1 as [|ab l Hab _ IH]; simpl; lra. Qed.

Lemma Rsum_halved (f : R * R -> R) (l : list (R * R)) :
  spec.Rsum (map (fun ab => f ab / 2) l) = spec.Rsum (map f l) / 2.
Proof. induction l as [|ab l IH]; simpl; lra. Qed.

Lemma square_terms_nonneg (ground predicted : list R) :
  0 <= spec.Rsum (ranges.zip_transform (fun g p => (g - p) ^ 2)
                    ground predicted).
Proof.
  apply Rsum_nonneg. apply zip_transform_Forall.
  intros g p. apply pow2_ge_0.
Qed.

Lemma L2_rev3_Rsum (ground predicted : list R) :
  loss_rev3.L2 ground predicted
  = spec.Rsum (ranges.zip_transform (fun g p => (g - p) ^ 2)
                 ground predicted).
Proof. exact (pairs_sum_Rsum _ ground predicted). Qed.

Lemma L2_squared (ground predicted : list R) :
  loss.L2 ground predicted ^ 2 = loss_rev3.L2 ground predicted.
Proof.
  rewrite L2_Rsum, L2_rev3_Rsum.
  apply pow2_sqrt. apply square_terms_nonneg.
Qed.

Lemma L2_diag (a : list R) : loss.L2 a a = 0.
Proof.
  rewrite L2_Rsum, (Rsum_all_zero _ (square_terms_zero_diag a)).
  apply sqrt_0.
Qed.

Lemma abs_terms_triangle :
  forall a b c : list R,
    length a = length b -> length b = length c ->
    spec.Rsum (ranges.zip_transform (fun g p => Rabs (g - p)) a c)
    <= spec.Rsum (ranges.zip_transform (fun g p => Rabs (g - p)) a b)
       + spec.Rsum (ranges.zip_transform (fun g p => Rabs (g - p)) b c).
Proof.
  unfold ranges.zip_transform, ranges.zip.
  induction a as [|x a IH]; intros [|y b] [|z c] Hab Hbc; simpl in *;
    try discriminate; try lra.
  injection Hab as Hab. injection Hbc as Hbc.
  specialize (IH b c Hab Hbc).
  pose proof (Rabs_triang (x - y) (y - z)) as Htri.
  replace (x - y + (y - z)) with (x - z) in Htri by ring.
  lra.
Qed.
End RealDistances.

(** X8: [L1] and [L2] do not depend on the order of their two arguments,
    whatever the lengths. *)
Theorem L1_L2_symmetric (ground predicted : list R) :
  loss.L1 ground predicted = loss.L1 predicted ground
  /\ loss.L2 ground predicted = loss.L2 predicted ground.
Proof.
  rewrite !L1_Rsum, !L2_Rsum.
  rewrite (zip_transform_swap _ predicted ground).
  rewrite (zip_transform_swap (fun g p => (g - p) ^ 2)%R predicted ground).
  split; [|f_equal]; f_equal; apply zip_transform_ext; intros a b.
  - apply Rabs_minus_sym.
  - ring.
Qed.

(** X9: on sequences of one length [L1] satisfies the triangle
    inequality. *)
Theorem L1_triangle (a b c : list R) :
  length a = length b ->
  length b = length c ->
  (loss.L1 a c <= loss.L1 a b + loss.L1 b c)%R.
Proof.
  intros Hab Hbc. rewrite !L1_Rsum. now apply abs_terms_triangle.
Qed.

Lemma L1_triangle_witness :
  length [0%R; 5%R] = length [2%R; 1%R]
  /\ length [2%R; 1%R] = length [3%R; 3%R]
  /\ (loss.L1 [0%R; 5%R] [3%R; 3%R]
      <= loss.L1 [0%R; 5%R] [2%R; 1%R] + loss.L1 [2%R; 1%R] [3%R; 3%R])%R.
Proof.
  split; [reflexivity|]. split; [reflexivity|].
  exact (L1_triangle [0%R; 5%R] [2%R; 1%R] [3%R; 3%R] eq_refl eq_refl).
Defined.

(** X10: the third revision's [L2] is the squared Euclidean distance: it is
    non-negative, the later revisions' [L2] is its square root, and it is
    the square of that [L2]. *)
Theorem L2_rev3_is_squared_L2 (ground predicted : list R) :
  (0 <= loss_rev3.L2 ground predicted)%R
  /\ loss.L2 ground predicted = sqrt (loss_rev3.L2 ground predicted)
  /\ (loss.L2 ground predicted ^ 2)%R = loss_rev3.L2 ground predicted.
Proof.
  split; [|split].
  - rewrite L2_rev3_Rsum. apply square_terms_nonneg.
  - now rewrite L2_Rsum, L2_rev3_Rsum.
  - apply L2_squared.
Qed.

(** X11: when no signed difference [g - p] exceeds the threshold, however
    large its magnitude, [huber] is half the squared Euclidean distance. *)
Theorem huber_quadratic_regime (ground predicted : list R) (threshold : R) :
  Forall (fun gp => (fst gp - snd gp <= threshold)%R)
    (ranges.zip ground predicted) ->
  loss.huber ground predicted threshold
  = (loss.L2 ground predicted ^ 2 / 2)%R.
Proof.
  intro Hall. rewrite huber_Rsum, L2_squared, L2_rev3_Rsum.
  unfold ranges.zip_transform.
  rewrite <- (Rsum_halved (fun ab => ((fst ab - snd ab) ^ 2)%R)).
  apply Rsum_eq.
  apply (Forall_impl _ (P := fun gp => (fst gp - snd gp <= threshold)%R));
    [|exact Hall].
  intros gp Hle. unfold spec.huber_term.
  now destruct (Rle_dec (fst gp - snd gp) threshold).
Qed.

Lemma huber_quadratic_regime_witness :
  Forall (fun gp => (fst gp - snd gp <= 1)%R) (ranges.zip [0%R] [100%R])
  /\ loss.huber [0%R] [100%R] 1%R = (loss.L2 [0%R] [100%R] ^ 2 / 2)%R.
Proof.
  assert (Hall : Forall (fun gp => (fst gp - snd gp <= 1)%R)
                   (ranges.zip [0%R] [100%R])).
  { repeat constructor. simpl. lra. }
  split; [exact Hall|].
  exact (huber_quadratic_regime [0%R] [100%R] 1%R Hall).
Defined.

(** X12: with a threshold of at least [1/2], [huber] is non-negative on all
    inputs. *)
Theorem huber_nonneg_from_half (ground predicted : list R) (threshold : R) :
  (1 / 2 <= threshold)%R ->
  (0 <= loss.huber ground predicted threshold)%R.
Proof.
  intro Ht. rewrite huber_Rsum. apply Rsum_nonneg.
  apply zip_transform_Forall. intros g p.
  unfold spec.huber_term.
  destruct (Rle_dec (g - p) threshold) as [Hle|Hgt].
  - pose proof (pow2_ge_0 (g - p)). lra.
  - rewrite Rabs_right by lra. nra.
Qed.

Lemma huber_nonneg_from_half_witness :
  (1 / 2 <= 1)%R /\ (0 <= loss.huber [3%R] [0%R] 1%R)%R.
Proof.
  assert (Ht : (1 / 2 <= 1)%R) by lra.
  split; [exact Ht|].
  exact (huber_nonneg_from_half [3%R] [0%R] 1%R Ht).
Defined.

(** X13: [hinge] is [0] exactly when every zipped pair has
    [g * p >= 1]. *)
Theorem hinge_zero_iff_margins_met (ground predicted : list R) :
  loss.hinge ground predicted = 0%R
  <-> Forall (fun gp => (1 <= fst gp * snd gp)%R)
        (ranges.zip ground predicted).
Proof.
  unfold loss.hinge. cbv zeta. rewrite engine_Rsum.
  assert (Hterm : forall g p : R,
             std.max std.zero (std.one - g * p)%num = 0%R
             <-> (1 <= g * p)%R).
  { intros g p. rewrite max_Rmax. real_ops. unfold Rmax.
    destruct (Rle_dec 0 (1 - g * p)); split; intro; lra. }
  unfold ranges.zip_transform. split.
  - intro Hsum. apply Rsum_zero_terms in Hsum.
    + rewrite Forall_map in Hsum.
      apply (Forall_impl _ (P := fun gp =>
               std.max std.zero (std.one - fst gp * snd gp)%num = 0%R));
        [|exact Hsum].
      intros gp. apply Hterm.
    + rewrite Forall_map. apply Forall_forall. intros gp _.
      rewrite max_Rmax. apply Rmax_l.
  - intro Hall. apply Rsum_all_zero. rewrite Forall_map.
    apply (Forall_impl _ (P := fun gp => (1 <= fst gp * snd gp)%R));
      [|exact Hall].
    intros gp. apply Hterm.
Qed.

(** ** Entropies *)

Section RealEntropies.
Open Scope R_scope.

Lemma ln_below_shifted (x : R) : 0 < x -> ln x <= x - 1.
Proof.
  intro Hx. pose proof (exp_ineq1_le (ln x)) as Hexp.
  rewrite exp_ln in Hexp by exact Hx. lra.
Qed.

Lemma ln_nonpos (p : R) : 0 < p <= 1 -> ln p <= 0.
Proof.
  intros [Hp Hle]. pose proof (ln_below_shifted p Hp). lra.
Qed.

Lemma ln_neg (p : R) : 0 < p < 1 -> ln p < 0.
Proof.
  intros [Hp Hlt]. rewrite <- ln_1. now apply ln_increasing.
Qed.

Lemma kl_term_bound (g p : R) :
  0 < g -> 0 < p -> g - p <= g * ln (g / p).
Proof.
  intros Hg Hp.
  assert (Hq : 0 < p / g) by now apply Rdiv_lt_0_compat.
  pose proof (ln_below_shifted (p / g) Hq) as Hln.
  replace (g / p) with (/ (p / g)) by (field; lra).
  rewrite ln_Rinv by exact Hq.
  assert (Hmul : g * ln (p / g) <= g * (p / g - 1)) by nra.
  replace (g * (p / g - 1)) with (p - g) in Hmul by (field; lra).
  lra.
Qed.

Lemma kl_Rsum (ground predicted : list R) :
  loss.kl ground predicted
  = spec.Rsum (ranges.zip_transform (fun g p => g * ln (g / p))
                 ground predicted).
Proof. unfold loss.kl. cbv zeta. apply engine_Rsum. Qed.

Lemma ce_Rsum (ground predicted : list R) :
  loss.ce ground predicted
  = - spec.Rsum (ranges.zip_transform (fun g p => g * ln p)
                   ground predicted)
    / INR (length ground).
Proof.
  unfold loss.ce, ranges.size. cbv zeta.
  change (ranges.for_zip ground predicted
            (fun ce gnd pred : R => (ce + gnd * std.log pred)%num) std.zero)
    with (spec.pairs_sum (fun g p : R => (g * std.log p)%num)
            ground predicted).
  now rewrite pairs_sum_Rsum.
Qed.

Lemma bce_Rsum (ground predicted : list R) :
  loss.bce ground predicted
  = - spec.Rsum (ranges.zip_transform
                   (fun g p => g * ln p + (g - 1) * ln (1 - p))
                   ground predicted)
    / INR (length ground).
Proof.
  unfold loss.bce, ranges.size. cbv zeta.
  change (ranges.for_zip ground predicted
            (fun bce gnd pred : R =>
               (bce + (gnd * std.log pred
                       + (gnd - std.one) * std.log (std.one - pred)))%num)
            std.zero)
    with (spec.pairs_sum spec.bce_term ground predicted).
  now rewrite pairs_sum_Rsum.
Qed.

Lemma Rsum_plus (f g : R * R -> R) (l : list (R * R)) :
  spec.Rsum (map (fun ab => f ab + g ab) l)
  = spec.Rsum (map f l) + spec.Rsum (map g l).
Proof. induction l as [|ab l IH]; simpl; lra. Qed.

Lemma Rsum_nonpos (ts : list R) :
  Forall (fun t => t <= 0) ts -> spec.Rsum ts <= 0.
Proof. induction 1 as [|t ts Ht _ IH]; simpl; lra. Qed.

Lemma Rsum_neg (ts : list R) :
  ts <> [] -> Forall (fun t => t < 0) ts -> spec.Rsum ts < 0.
Proof.
  intros Hne Hall. destruct Hall as [|t ts Ht Hts]; [congruence|].
  simpl. assert (spec.Rsum ts <= 0); [|lra].
  apply Rsum_nonpos. eapply Forall_impl; [|exact Hts].
  intros; simpl in *; lra.
Qed.

Lemma nonempty_size_pos {A : Type} (l : list A) : l <> [] -> 0 < INR (length l).
Proof.
  intro Hne. apply lt_0_INR. destruct l; [congruence | simpl; lia].
Qed.
End RealEntropies.

(** X14: on equal-length sequences of positive numbers, [kl] is at least the
    sum of [ground] minus the sum of [predicted]; so it is non-negative
    when the two sums agree (two distributions), and it is [0] on
    identical sequences. *)
Theorem kl_gibbs_bound (ground predicted : list R) :
  length ground = length predicted ->
  Forall (fun g => (0 < g)%R) ground ->
  Forall (fun p => (0 < p)%R) predicted ->
  (spec.Rsum ground - spec.Rsum predicted <= loss.kl ground predicted)%R
  /\ (spec.Rsum ground = spec.Rsum predicted ->
      (0 <= loss.kl ground predicted)%R)
  /\ loss.kl ground ground = 0%R.
Proof.
  intros Hlen Hg Hp.
  assert (Hbound : (spec.Rsum ground - spec.Rsum predicted
                    <= loss.kl ground predicted)%R).
  { rewrite kl_Rsum. unfold ranges.zip_transform, ranges.zip.
    revert predicted Hlen Hp.
    induction Hg as [|g ground Hg0 Hg IH]; intros [|p predicted] Hlen Hp;
      simpl in *; try discriminate; [lra|].
    inversion Hp as [|p' ps Hp0 Hps]; subst.
    injection Hlen as Hlen. specialize (IH predicted Hlen Hps).
    pose proof (kl_term_bound g p Hg0 Hp0). lra. }
  split; [exact Hbound|]. split; [intro Heq; lra|].
  rewrite kl_Rsum. apply Rsum_all_zero.
  unfold ranges.zip_transform, ranges.zip. clear Hbound Hlen Hp.
  induction Hg as [|g ground Hg0 Hg IH]; simpl; constructor; [|exact IH].
  unfold Rdiv. rewrite Rinv_r by lra. rewrite ln_1. ring.
Qed.

Lemma kl_gibbs_bound_witness :
  length [1%R; 2%R] = length [2%R; 1%R]
  /\ Forall (fun g => (0 < g)%R) [1%R; 2%R]
  /\ Forall (fun p => (0 < p)%R) [2%R; 1%R]
  /\ (0 <= loss.kl [1%R; 2%R] [2%R; 1%R])%R.
Proof.
  assert (Hg : Forall (fun g => (0 < g)%R) [1%R; 2%R])
    by (repeat constructor; lra).
  assert (Hp : Forall (fun p => (0 < p)%R) [2%R; 1%R])
    by (repeat constructor; lra).
  split; [reflexivity|]. split; [exact Hg|]. split; [exact Hp|].
  apply (proj1 (proj2 (kl_gibbs_bound [1%R; 2%R] [2%R; 1%R] eq_refl Hg Hp))).
  simpl. lra.
Defined.

(** X15: for a non-empty [ground] of non-negative labels and predictions in
    (0, 1], [ce] is non-negative. *)
Theorem ce_nonneg (ground predicted : list R) :
  ground <> [] ->
  Forall (fun g => (0 <= g)%R) ground ->
  Forall (fun p => (0 < p <= 1)%R) predicted ->
  (0 <= loss.ce ground predicted)%R.
Proof.
  intros Hne Hg Hp. rewrite ce_Rsum.
  pose proof (nonempty_size_pos ground Hne) as Hsize.
  apply Rmult_le_pos; [|left; now apply Rinv_0_lt_compat].
  apply Ropp_0_ge_le_contravar, Rle_ge.
  apply Rsum_nonpos. unfold ranges.zip_transform. rewrite Forall_map.
  eapply Forall_impl; [|exact (zip_Forall _ _ ground predicted Hg Hp)].
  intros gp [Hg0 Hp0]. cbv beta in *.
  pose proof (ln_nonpos _ Hp0). nra.
Qed.

Lemma ce_nonneg_witness :
  [1%R; 0%R] <> []
  /\ Forall (fun g => (0 <= g)%R) [1%R; 0%R]
  /\ Forall (fun p => (0 < p <= 1)%R) [(1 / 2)%R; 1%R]
  /\ (0 <= loss.ce [1%R; 0%R] [(1 / 2)%R; 1%R])%R.
Proof.
  assert (Hne : [1%R; 0%R] <> []) by discriminate.
  assert (Hg : Forall (fun g => (0 <= g)%R) [1%R; 0%R])
    by (repeat constructor; lra).
  assert (Hp : Forall (fun p => (0 < p <= 1)%R) [(1 / 2)%R; 1%R])
    by (repeat constructor; lra).
  split; [exact Hne|]. split; [exact Hg|]. split; [exact Hp|].
  exact (ce_nonneg [1%R; 0%R] [(1 / 2)%R; 1%R] Hne Hg Hp).
Defined.

(** X16: for a non-empty [ground], [bce] is [ce] plus the mean of
    [(1 - g) * ln(1 - p)] over the zipped pairs (the second term enters
    with a plus sign). *)
Theorem bce_is_ce_plus_complement (ground predicted : list R) :
  ground <> [] ->
  loss.bce ground predicted
  = (loss.ce ground predicted
     + spec.Rsum (ranges.zip_transform
                    (fun g p => (1 - g) * ln (1 - p)) ground predicted)
       / INR (length ground))%R.
Proof.
  intro Hne. rewrite bce_Rsum, ce_Rsum.
  pose proof (nonempty_size_pos ground Hne) as Hsize.
  unfold ranges.zip_transform.
  rewrite (Rsum_plus (fun ab => fst ab * ln (snd ab))%R
             (fun ab => (fst ab - 1) * ln (1 - snd ab))%R).
  assert (Hflip :
    spec.Rsum (map (fun ab => ((fst ab - 1) * ln (1 - snd ab))%R)
                 (ranges.zip ground predicted))
    = (- spec.Rsum (map (fun ab => ((1 - fst ab) * ln (1 - snd ab))%R)
                      (ranges.zip ground predicted)))%R).
  { induction (ranges.zip ground predicted) as [|ab l IH]; simpl; lra. }
  rewrite Hflip. field. lra.
Qed.

Lemma bce_is_ce_plus_complement_witness :
  [0%R] <> []
  /\ loss.bce [0%R] [(1 / 2)%R]
     = (loss.ce [0%R] [(1 / 2)%R]
        + spec.Rsum (ranges.zip_transform
                       (fun g p => (1 - g) * ln (1 - p))
                       [0%R] [(1 / 2)%R])
          / INR (length [0%R]))%R.
Proof.
  assert (Hne : [0%R] <> []) by discriminate.
  split; [exact Hne|].
  exact (bce_is_ce_plus_complement [0%R] [(1 / 2)%R] Hne).
Defined.

(** X17: on equal-length non-empty sequences with predictions in (0, 1),
    [bce] equals [ce] when every label is [1], and is negative when every
    label is [0]. *)
Theorem bce_on_constant_labels (ground predicted : list R) :
  ground <> [] ->
  length ground = length predicted ->
  Forall (fun p => (0 < p < 1)%R) predicted ->
  (Forall (fun g => g = 1%R) ground ->
   loss.bce ground predicted = loss.ce ground predicted)
  /\ (Forall (fun g => g = 0%R) ground ->
      (loss.bce ground predicted < 0)%R).
Proof.
  intros Hne Hlen Hp.
  pose proof (nonempty_size_pos ground Hne) as Hsize.
  split; intro Hg.
  - rewrite bce_Rsum, ce_Rsum. do 2 f_equal.
    unfold ranges.zip_transform. apply Rsum_eq.
    eapply Forall_impl; [|exact (zip_Forall _ _ ground predicted Hg Hp)].
    intros gp [Hg0 _]. cbv beta in *. rewrite Hg0. ring.
  - rewrite bce_Rsum.
    assert (Hpos :
      (0 < spec.Rsum (ranges.zip_transform
                        (fun g p => g * ln p + (g - 1) * ln (1 - p))
                        ground predicted))%R).
    { unfold ranges.zip_transform.
      assert (Hzne : ranges.zip ground predicted <> []).
      { intro Hnil. apply (f_equal (@length _)) in Hnil.
        rewrite zip_length, <- Hlen, Nat.min_id in Hnil.
        destruct ground; [congruence | discriminate]. }
      pose proof (zip_Forall _ _ ground predicted Hg Hp) as Hall.
      induction Hall as [|gp l [Hg0 Hp0] Hall IH]; [congruence|].
      cbn [map spec.Rsum]. cbv beta in *. rewrite Hg0.
      assert (Hln : (ln (1 - snd gp) < 0)%R) by (apply ln_neg; lra).
      assert (Hrest : (0 <= spec.Rsum
                         (map (fun ab => fst ab * ln (snd ab)
                                         + (fst ab - 1) * ln (1 - snd ab))
                            l))%R).
      { apply Rsum_nonneg. rewrite Forall_map.
        eapply Forall_impl; [|exact Hall].
        intros ab [Ha Hb]. cbv beta in *. rewrite Ha.
        assert ((ln (1 - snd ab) < 0)%R) by (apply ln_neg; lra).
        lra. }
      lra. }
    apply (Rmult_lt_reg_r (INR (length ground))); [exact Hsize|].
    unfold Rdiv. rewrite Rmult_assoc, Rinv_l by lra. lra.
Qed.

Lemma bce_on_constant_labels_witness :
  [0%R] <> []
  /\ length [0%R] = length [(1 / 2)%R]
  /\ Forall (fun p => (0 < p < 1)%R) [(1 / 2)%R]
  /\ Forall (fun g => g = 0%R) [0%R]
  /\ (loss.bce [0%R] [(1 / 2)%R] < 0)%R.
Proof.
  assert (Hne : [0%R] <> []) by discriminate.
  assert (Hp : Forall (fun p => (0 < p < 1)%R) [(1 / 2)%R])
    by (repeat constructor; lra).
  assert (Hg : Forall (fun g => g = 0%R) [0%R]) by (repeat constructor).
  split; [exact Hne|]. split; [reflexivity|]. split; [exact Hp|].
  split; [exact Hg|].
  exact (proj2 (bce_on_constant_labels [0%R] [(1 / 2)%R] Hne eq_refl Hp) Hg).
Defined.

(** ** Margin losses *)

(** X18: [contrastive] is never negative; on a pair labelled similar it is
    the squared Euclidean distance of the features, whatever the margin. *)
Theorem contrastive_similar_pair (ground : bool)
    (featuresA featuresB : list R) (margin : R) :
  (0 <= loss.contrastive ground featuresA featuresB margin)%R
  /\ loss.contrastive true featuresA featuresB margin
     = loss_rev3.L2 featuresA featuresB.
Proof.
  unfold loss.contrastive. cbv zeta. rewrite L2_f_is_L2. real_ops.
  split.
  - destruct ground; apply pow2_ge_0.
  - apply L2_squared.
Qed.

(** X19: on a pair labelled dissimilar, [contrastive] is [0] once the
    distance reaches the margin, is [(margin - distance)^2] below it, and is
    [margin^2] for identical features and a non-negative margin. *)
Theorem contrastive_dissimilar_pair (featuresA featuresB : list R)
    (margin : R) :
  ((margin <= loss.L2 featuresA featuresB)%R ->
   loss.contrastive false featuresA featuresB margin = 0%R)
  /\ ((loss.L2 featuresA featuresB <= margin)%R ->
      loss.contrastive false featuresA featuresB margin
      = ((margin - loss.L2 featuresA featuresB) ^ 2)%R)
  /\ ((0 <= margin)%R ->
      loss.contrastive false featuresA featuresA margin = (margin ^ 2)%R).
Proof.
  unfold loss.contrastive. cbv zeta.
  rewrite !L2_f_is_L2, !max_Rmax, L2_diag. real_ops.
  repeat split; intro Hm.
  - rewrite Rmax_right by lra. ring.
  - rewrite Rmax_left by lra. reflexivity.
  - rewrite Rmax_left by lra. f_equal. ring.
Qed.

Lemma contrastive_dissimilar_pair_witness :
  (0 <= 2)%R /\ loss.contrastive false [1%R] [1%R] 2%R = (2 ^ 2)%R.
Proof.
  assert (Hm : (0 <= 2)%R) by lra.
  split; [exact Hm|].
  exact (proj2 (proj2 (contrastive_dissimilar_pair [1%R] [1%R] 2%R)) Hm).
Defined.

(** X20: [tr] is never negative; when the negative sample is the anchor
    itself and the margin is non-negative it is the anchor-positive
    distance plus the margin; when positive and negative coincide it is
    [max(margin, 0)]. *)
Theorem tr_degenerate_triplets (anchor positive negative : list R)
    (margin : R) :
  (0 <= loss.tr anchor positive negative margin)%R
  /\ ((0 <= margin)%R ->
      loss.tr anchor positive anchor margin
      = (loss.L2 anchor positive + margin)%R)
  /\ loss.tr anchor positive positive margin = Rmax margin 0.
Proof.
  unfold loss.tr. cbv zeta.
  rewrite !max_Rmax, !L2_f_is_L2, L2_diag. real_ops.
  split; [apply Rmax_r|]. split.
  - intro Hm. pose proof (L2_nonneg anchor positive).
    rewrite Rmax_left by lra. ring.
  - f_equal. ring.
Qed.

Lemma tr_degenerate_triplets_witness :
  (0 <= 1)%R
  /\ loss.tr [0%R] [3%R] [0%R] 1%R = (loss.L2 [0%R] [3%R] + 1)%R.
Proof.
  assert (Hm : (0 <= 1)%R) by lra.
  split; [exact Hm|].
  exact (proj1 (proj2 (tr_degenerate_triplets [0%R] [3%R] [0%R] 1%R)) Hm).
Defined.

(** ** Softmax, further *)

Section RealSoftmax.
Open Scope R_scope.

Lemma shifted_exp_sum (c : R) (xs : list R) :
  spec.Rsum (map exp (map (fun x => x + c) xs))
  = exp c * spec.Rsum (map exp xs).
Proof.
  induction xs as [|x xs IH]; simpl.
  - ring.
  - rewrite IH, exp_plus. ring.
Qed.

Lemma softmax_nth (xs : list R) (i : nat) :
  (i < length xs)%nat ->
  nth i (loss.softmax xs) 0 = exp (nth i xs 0) / spec.Rsum (map exp xs).
Proof.
  intro Hi. rewrite softmax_quotients.
  rewrite (nth_indep _ 0 (exp 0 / spec.Rsum (map exp xs)))
    by (now rewrite length_map).
  apply (map_nth (fun x => exp x / spec.Rsum (map exp xs))).
Qed.
End RealSoftmax.

(** X21: adding one constant to every input leaves [softmax]
    unchanged. *)
Theorem softmax_shift_invariant (c : R) (predicted : list R) :
  loss.softmax (map (fun x => (x + c)%R) predicted) = loss.softmax predicted.
Proof.
  rewrite !softmax_quotients, shifted_exp_sum, map_map.
  apply map_ext. intro x.
  pose proof (exp_pos c) as Hc.
  rewrite exp_plus. unfold Rdiv. rewrite Rinv_mult.
  rewrite (Rmult_comm (exp x) (exp c)), Rmult_assoc.
  rewrite <- (Rmult_assoc (exp c)), (Rmult_comm (exp c) (exp x)).
  rewrite Rmult_assoc, <- (Rmult_assoc (exp c)), Rinv_r by lra.
  ring.
Qed.

(** X22: [softmax] keeps the order of its inputs: a larger input gets a
    larger (or equal) output. *)
Theorem softmax_order_preserving (predicted : list R) (i j : nat) :
  (i < length predicted)%nat ->
  (j < length predicted)%nat ->
  (nth i predicted 0 <= nth j predicted 0)%R ->
  (nth i (loss.softmax predicted) 0 <= nth j (loss.softmax predicted) 0)%R.
Proof.
  intros Hi Hj Hle. rewrite !softmax_nth by assumption.
  assert (Hne : predicted <> []).
  { destruct predicted; [simpl in Hi; lia | discriminate]. }
  pose proof (exp_sum_pos predicted Hne) as Hpos.
  apply Rmult_le_compat_r; [left; now apply Rinv_0_lt_compat|].
  destruct Hle as [Hlt|Heq]; [left; now apply exp_increasing|].
  rewrite Heq. lra.
Qed.

Lemma softmax_order_preserving_witness :
  (0 < length [1%R; 2%R])%nat
  /\ (1 < length [1%R; 2%R])%nat
  /\ (nth 0 [1%R; 2%R] 0 <= nth 1 [1%R; 2%R] 0)%R
  /\ (nth 0 (loss.softmax [1%R; 2%R]) 0
      <= nth 1 (loss.softmax [1%R; 2%R]) 0)%R.
Proof.
  assert (Hi : (0 < length [1%R; 2%R])%nat) by (simpl; lia).
  assert (Hj : (1 < length [1%R; 2%R])%nat) by (simpl; lia).
  assert (Hle : (nth 0 [1%R; 2%R] 0 <= nth 1 [1%R; 2%R] 0)%R)
    by (simpl; lra).
  split; [exact Hi|]. split; [exact Hj|]. split; [exact Hle|].
  exact (softmax_order_preserving [1%R; 2%R] 0 1 Hi Hj Hle).
Defined.

(** ** The engine on concatenated and on empty sequences *)

(** X23: under exact arithmetic the engine, [L1] and [huber] are additive
    over concatenation: reducing [r0 ++ s0] against [r1 ++ s1], with [r0]
    and [r1] of one length, is the sum of the two reductions. *)
Theorem reductions_additive_over_append (f : R -> R -> R)
    (r0 r1 s0 s1 : list R) (threshold : R) :
  length r0 = length r1 ->
  loss.apply_and_accumulate f (r0 ++ s0) (r1 ++ s1)
  = (loss.apply_and_accumulate f r0 r1
     + loss.apply_and_accumulate f s0 s1)%R
  /\ loss.L1 (r0 ++ s0) (r1 ++ s1) = (loss.L1 r0 r1 + loss.L1 s0 s1)%R
  /\ loss.huber (r0 ++ s0) (r1 ++ s1) threshold
     = (loss.huber r0 r1 threshold + loss.huber s0 s1 threshold)%R.
Proof.
  intro Hlen.
  rewrite !engine_Rsum, !L1_Rsum, !huber_Rsum.
  rewrite !(zip_transform_app _ r0 r1 s0 s1 Hlen), !Rsum_app.
  repeat split.
Qed.

Lemma reductions_additive_over_append_witness :
  length [1%R] = length [2%R]
  /\ loss.L1 ([1%R] ++ [5%R]) ([2%R] ++ [3%R])
     = (loss.L1 [1%R] [2%R] + loss.L1 [5%R] [3%R])%R.
Proof.
  split; [reflexivity|].
  exact (proj1 (proj2 (reductions_additive_over_append
                         Rminus [1%R] [2%R] [5%R] [3%R] 0%R eq_refl))).
Defined.

(** X24: for every element type, an empty sequence on either side makes
    the engine, [L1], [huber], [kl] and [hinge] return [0], whatever the
    other sequence holds; [softmax] of the empty sequence is empty. *)
Theorem empty_sequence_gives_zero {T : Type} `{std.Floating T}
    (f : T -> T -> T) (r : list T) (threshold : T) :
  loss.apply_and_accumulate f [] r = std.zero
  /\ loss.apply_and_accumulate f r [] = std.zero
  /\ loss.L1 [] r = std.zero /\ loss.L1 r [] = std.zero
  /\ loss.huber [] r threshold = std.zero
  /\ loss.huber r [] threshold = std.zero
  /\ loss.kl [] r = std.zero /\ loss.kl r [] = std.zero
  /\ loss.hinge [] r = std.zero /\ loss.hinge r [] = std.zero
  /\ loss.softmax (@nil T) = [].
Proof.
  assert (Hzip : forall r' : list T, ranges.zip r' (@nil T) = []).
  { intros [|a r']; reflexivity. }
  unfold loss.L1, loss.huber, loss.kl, loss.hinge,
    loss.apply_and_accumulate, ranges.zip_transform, ranges.for_zip.
  cbv zeta. rewrite !Hzip.
  repeat split.
Qed.

(** ** Distances, further *)

Section RealMetric.
Open Scope R_scope.

Lemma zip_transform_map {A B C : Type} (f : B -> B -> C) (h : A -> B) :
  forall r0 r1 : list A,
    ranges.zip_transform f (map h r0) (map h r1)
    = ranges.zip_transform (fun a b => f (h a) (h b)) r0 r1.
Proof.
  unfold ranges.zip_transform, ranges.zip.
  induction r0 as [|a r0 IH]; intros [|b r1]; simpl; auto.
  now rewrite IH.
Qed.

Lemma square_terms_zero_iff :
  forall ground predicted : list R,
    length ground = length predicted ->
    Forall (fun t => t = 0)
      (ranges.zip_transform (fun g p => (g - p) ^ 2) ground predicted)
    <-> ground = predicted.
Proof.
  unfold ranges.zip_transform, ranges.zip.
  induction ground as [|g ground IH]; intros [|p predicted] Hlen;
    simpl in *; try discriminate.
  - split; auto.
  - injection Hlen as Hlen. specialize (IH predicted Hlen).
    split.
    + intro Hall. inversion Hall as [|t ts Ht Hts]; subst.
      f_equal; [nra | now apply IH].
    + intro Heq. injection Heq as -> ->. constructor; [ring|].
      now apply IH.
Qed.

Lemma squares_below_squared_abs (l : list (R * R)) :
  spec.Rsum (map (fun gp => (fst gp - snd gp) ^ 2) l)
  <= spec.Rsum (map (fun gp => Rabs (fst gp - snd gp)) l) ^ 2.
Proof.
  induction l as [|gp l IH]; cbn [map spec.Rsum].
  - lra.
  - assert (Hrest : 0 <= spec.Rsum
                      (map (fun gp => Rabs (fst gp - snd gp)) l)).
    { apply Rsum_nonneg. rewrite Forall_map.
      apply Forall_forall. intros; apply Rabs_pos. }
    pose proof (Rabs_pos (fst gp - snd gp)) as Habs.
    pose proof (pow2_abs (fst gp - snd gp)) as Hsq.
    pose proof (Rmult_le_pos _ _ Habs Hrest) as Hprod.
    set (d := fst gp - snd gp) in *.
    set (a := Rabs d) in *.
    set (S1 := spec.Rsum (map (fun gp => Rabs (fst gp - snd gp)) l)) in *.
    set (S2 := spec.Rsum (map (fun gp => (fst gp - snd gp) ^ 2) l)) in *.
    replace ((a + S1) ^ 2) with (a ^ 2 + 2 * (a * S1) + S1 ^ 2) by ring.
    lra.
Qed.
End RealMetric.

(** X25: on sequences of one length, [L2] is [0] exactly when the two
    sequences are equal. *)
Theorem L2_zero_iff_equal (ground predicted : list R) :
  length ground = length predicted ->
  (loss.L2 ground predicted = 0%R <-> ground = predicted).
Proof.
  intro Hlen. split.
  - rewrite L2_Rsum. intro Hsqrt.
    apply sqrt_eq_0 in Hsqrt; [|apply square_terms_nonneg].
    apply (square_terms_zero_iff ground predicted Hlen).
    apply Rsum_zero_terms; [|exact Hsqrt].
    apply zip_transform_Forall. intros g p. apply pow2_ge_0.
  - intros ->. apply L2_diag.
Qed.

Lemma L2_zero_iff_equal_witness :
  length [1%R; 2%R] = length [1%R; 2%R]
  /\ (loss.L2 [1%R; 2%R] [1%R; 2%R] = 0%R <-> [1%R; 2%R] = [1%R; 2%R]).
Proof.
  split; [reflexivity|].
  exact (L2_zero_iff_equal [1%R; 2%R] [1%R; 2%R] eq_refl).
Defined.

(** X26: the Euclidean distance never exceeds the Manhattan distance:
    [L2 <= L1] on all inputs. *)
Theorem L2_below_L1 (ground predicted : list R) :
  (loss.L2 ground predicted <= loss.L1 ground predicted)%R.
Proof.
  rewrite L2_Rsum, L1_Rsum.
  assert (Hl1 : (0 <= spec.Rsum
                   (ranges.zip_transform (fun g p => Rabs (g - p))
                      ground predicted))%R).
  { apply Rsum_nonneg. apply zip_transform_Forall. intros; apply Rabs_pos. }
  rewrite <- (sqrt_pow2 _ Hl1).
  apply sqrt_le_1.
  - apply square_terms_nonneg.
  - apply pow2_ge_0.
  - apply squares_below_squared_abs.
Qed.

(** X27: [L1] and [L2] are unchanged when one constant is added to every
    element of both sequences. *)
Theorem L1_L2_translation_invariant (c : R) (ground predicted : list R) :
  loss.L1 (map (fun x => (x + c)%R) ground)
          (map (fun x => (x + c)%R) predicted)
  = loss.L1 ground predicted
  /\ loss.L2 (map (fun x => (x + c)%R) ground)
             (map (fun x => (x + c)%R) predicted)
     = loss.L2 ground predicted.
Proof.
  rewrite !L1_Rsum, !L2_Rsum, !zip_transform_map.
  split; [|f_equal]; f_equal; apply zip_transform_ext; intros a b.
  - f_equal. ring.
  - ring.
Qed.

(** ** Activations, further *)

(** X28: [tanh] is odd, takes its values in the open interval (-1, 1), and
    is [2 * sigmoid(2z) - 1]. *)
Theorem tanh_rescaled_sigmoid (z : R) :
  activation.tanh (- z)%R = (- activation.tanh z)%R
  /\ (-1 < activation.tanh z < 1)%R
  /\ activation.tanh z = (2 * activation.sigmoid (2 * z) - 1)%R.
Proof.
  unfold activation.tanh. cbn [std.tanh R_hyperbolic].
  rewrite !tanh_exp, sigmoid_quotient, Ropp_involutive.
  pose proof (exp_pos z) as Hp. pose proof (exp_pos (- z)) as Hn.
  split; [|split].
  - field. lra.
  - split.
    + apply (Rmult_lt_reg_r (exp z + exp (- z))); [lra|].
      unfold Rdiv. rewrite Rmult_assoc, Rinv_l by lra. lra.
    + apply (Rmult_lt_reg_r (exp z + exp (- z))); [lra|].
      unfold Rdiv. rewrite Rmult_assoc, Rinv_l by lra. lra.
  - replace (- (2 * z))%R with (- z + - z)%R by ring.
    rewrite exp_plus.
    assert (Hinv : exp z = (/ exp (- z))%R).
    { rewrite exp_Ropp, Rinv_inv. reflexivity. }
    rewrite Hinv. field. split; nra.
Qed.

(** X29: [softplus] with [beta = 1] is the negated logarithm of
    [sigmoid(-z)]. *)
Theorem softplus_log_sigmoid (z : R) :
  activation.softplus z 1%R = (- ln (activation.sigmoid (- z)))%R.
Proof.
  rewrite sigmoid_quotient, Ropp_involutive.
  pose proof (exp_pos z) as Hp.
  rewrite ln_Rinv by lra.
  unfold activation.softplus. real_ops.
  rewrite Rmult_1_r. unfold Rdiv. rewrite Rinv_1. ring.
Qed.

(** ** Entropies, further *)

Section RealDivergence.
Open Scope R_scope.

Lemma kl_terms_split :
  forall ground predicted : list R,
    length ground = length predicted ->
    Forall (fun g => 0 < g) ground ->
    Forall (fun p => 0 < p) predicted ->
    spec.Rsum (ranges.zip_transform (fun g p => g * ln (g / p))
                 ground predicted)
    = spec.Rsum (ranges.zip_transform (fun g p => g * ln p) ground ground)
      - spec.Rsum (ranges.zip_transform (fun g p => g * ln p)
                     ground predicted).
Proof.
  unfold ranges.zip_transform, ranges.zip.
  induction ground as [|g ground IH]; intros [|p predicted] Hlen Hg Hp;
    simpl in *; try discriminate; [lra|].
  inversion Hg as [|g' gs Hg0 Hgs]; inversion Hp as [|p' ps Hp0 Hps]; subst.
  injection Hlen as Hlen. rewrite (IH predicted Hlen Hgs Hps).
  unfold Rdiv. rewrite ln_mult by (try apply Rinv_0_lt_compat; lra).
  rewrite ln_Rinv by lra. ring.
Qed.
End RealDivergence.

(** X30: on equal-length, non-empty sequences of positive numbers, [kl] is
    the length times the excess of the cross-entropy [ce(ground,
    predicted)] over the entropy [ce(ground, ground)]. *)
Theorem kl_is_cross_entropy_excess (ground predicted : list R) :
  ground <> [] ->
  length ground = length predicted ->
  Forall (fun g => (0 < g)%R) ground ->
  Forall (fun p => (0 < p)%R) predicted ->
  loss.kl ground predicted
  = (INR (length ground)
     * (loss.ce ground predicted - loss.ce ground ground))%R.
Proof.
  intros Hne Hlen Hg Hp.
  pose proof (nonempty_size_pos ground Hne) as Hsize.
  rewrite kl_Rsum, !ce_Rsum, (kl_terms_split ground predicted Hlen Hg Hp).
  field. lra.
Qed.

Lemma kl_is_cross_entropy_excess_witness :
  [1%R; 2%R] <> []
  /\ length [1%R; 2%R] = length [2%R; 1%R]
  /\ Forall (fun g => (0 < g)%R) [1%R; 2%R]
  /\ Forall (fun p => (0 < p)%R) [2%R; 1%R]
  /\ loss.kl [1%R; 2%R] [2%R; 1%R]
     = (INR (length [1%R; 2%R])
        * (loss.ce [1%R; 2%R] [2%R; 1%R] - loss.ce [1%R; 2%R] [1%R; 2%R]))%R.
Proof.
  assert (Hne : [1%R; 2%R] <> []) by discriminate.
  assert (Hg : Forall (fun g => (0 < g)%R) [1%R; 2%R])
    by (repeat constructor; lra).
  assert (Hp : Forall (fun p => (0 < p)%R) [2%R; 1%R])
    by (repeat constructor; lra).
  split; [exact Hne|]. split; [reflexivity|]. split; [exact Hg|].
  split; [exact Hp|].
  exact (kl_is_cross_entropy_excess [1%R; 2%R] [2%R; 1%R] Hne eq_refl Hg Hp).
Defined.
